(** * jsonschema.validators: the validation engine and the reference resolver

    A shallow embedding of [jsonschema/validators.py]: variant construction
    ([create], [extend], [validates]), the engine ([iter_errors], [descend],
    [validate], [is_valid], [check_schema]), the resolver ([RefResolver]) and
    the module-level [validate] and [validator_for].

    Conventions.
    - A Python value is a [json]; numbers are restricted to integers.
    - A Python [dict] read in iteration order ([items()], [values()]) is an
      association list whose keys are pairwise distinct; a [dict] read by
      key only ([VALIDATORS], the stores) is a [gmap].
    - A raising call returns [Err]; generators return the diagnostics they
      yielded together with the way they stopped.
    - Strings are byte strings; Python text outside ASCII is not modelled.
    - The two [lru_cache] wrappers memoise deterministic functions and are
      transparent; they do not appear.
    - What [urllib] and the modules [_utils], [_types], [_validators] and
      [exceptions] provide is a parameter of the section that uses it, or
      is modelled from the specification where a comment says so. *)

From Stdlib Require Import ZArith Ascii String List Bool Lia.
From stdpp Require Import base option gmap strings list.

Set Warnings "-register-all".

Local Open Scope string_scope.
Local Open Scope list_scope.
Local Open Scope Z_scope.

(** ** Python values *)

Inductive json : Type :=
| JNull
| JBool (b : bool)
| JNum (n : Z)
| JStr (s : string)
| JArr (items : list json)
| JObj (members : list (string * json)).

(** [bool(x)] *)
Definition truthy (x : json) : bool :=
  match x with
  | JNull => false
  | JBool b => b
  | JNum n => negb (n =? 0)
  | JStr s => negb (String.eqb s "")
  | JArr l => match l with [] => false | _ => true end
  | JObj m => match m with [] => false | _ => true end
  end.

(** [d.get(key)] on the members of a dict *)
Fixpoint dict_get (key : string) (m : list (string * json)) : option json :=
  match m with
  | [] => None
  | (k, v) :: rest => if String.eqb k key then Some v else dict_get key rest
  end.

(** [key in d] *)
Definition dict_has (key : string) (m : list (string * json)) : bool :=
  match dict_get key m with Some _ => true | None => false end.

(** ** Python string methods used by the module *)

Module PyStr.

(** [s.lstrip(c)] for a one-character [c] *)
Fixpoint lstrip (c : ascii) (s : string) : string :=
  match s with
  | EmptyString => EmptyString
  | String a t => if Ascii.eqb a c then lstrip c t else s
  end.

(** [s.rstrip(c)] for a one-character [c] *)
Fixpoint rstrip (c : ascii) (s : string) : string :=
  match s with
  | EmptyString => EmptyString
  | String a t =>
      match rstrip c t with
      | EmptyString => if Ascii.eqb a c then EmptyString else String a EmptyString
      | t' => String a t'
      end
  end.

(** [s.split(c)] for a one-character [c]; never empty *)
Fixpoint split (c : ascii) (s : string) : list string :=
  match s with
  | EmptyString => [EmptyString]
  | String a t =>
      if Ascii.eqb a c then EmptyString :: split c t
      else match split c t with
           | h :: r => String a h :: r
           | [] => [String a EmptyString]
           end
  end.

(** [s.replace(old, new)] for a non-empty [old]: occurrences are taken
    left to right and do not overlap.  [skip] counts the characters of a
    match that are still to be dropped. *)
Fixpoint replace_from (skip : nat) (old new : string) (s : string) : string :=
  match s with
  | EmptyString => EmptyString
  | String a t =>
      match skip with
      | S k => replace_from k old new t
      | O =>
          if String.prefix old s
          then new +:+ replace_from (Nat.pred (String.length old)) old new t
          else String a (replace_from O old new t)
      end
  end.

Definition replace (old new s : string) : string := replace_from O old new s.

(** [s[i]] for a non-negative [i] *)
Fixpoint nth_char (i : nat) (s : string) : option ascii :=
  match s, i with
  | EmptyString, _ => None
  | String a _, O => Some a
  | String _ t, S j => nth_char j t
  end.

(** The whitespace [int] skips around a literal in an ASCII string: tab,
    line feed, vertical tab, form feed, carriage return and space. *)
Definition is_space (a : ascii) : bool :=
  let n := nat_of_ascii a in
  ((9 <=? n) && (n <=? 13) || (n =? 32))%nat.

Definition strip_spaces (s : string) : string :=
  let fix l (s : string) :=
    match s with
    | String a t => if is_space a then l t else s
    | EmptyString => EmptyString
    end in
  let fix r (s : string) :=
    match s with
    | EmptyString => EmptyString
    | String a t =>
        match r t with
        | EmptyString => if is_space a then EmptyString else String a EmptyString
        | t' => String a t'
        end
    end in
  r (l s).

Definition digit (a : ascii) : option Z :=
  let n := nat_of_ascii a in
  if ((48 <=? n) && (n <=? 57))%nat then Some (Z.of_nat n - 48) else None.

(** The digits of a decimal literal: groups of digits separated by
    single underscores.  [acc] is [None] before the first digit;
    [after_digit] tells whether the previous character was a digit. *)
Fixpoint digits (acc : option Z) (after_digit : bool) (s : string) : option Z :=
  match s with
  | EmptyString => if after_digit then acc else None
  | String a t =>
      match digit a with
      | Some d => digits (Some (10 * default 0 acc + d)) true t
      | None =>
          if Ascii.eqb a "_" && after_digit then digits acc false t else None
      end
  end.

(** The number of digit characters of [s]. *)
Fixpoint count_digits (s : string) : nat :=
  match s with
  | EmptyString => O
  | String a t =>
      match digit a with
      | Some _ => S (count_digits t)
      | None => count_digits t
      end
  end.

(** A literal after its sign; the interpreter refuses a literal of more
    than 4300 digits (its default limit). *)
Definition unsigned (s : string) : option Z :=
  if (4300 <? count_digits s)%nat then None else digits None false s.

(** [int(s)]: [None] stands for [ValueError] *)
Definition int (s : string) : option Z :=
  match strip_spaces s with
  | String "+" t => unsigned t
  | String "-" t => Z.opp <$> unsigned t
  | t => unsigned t
  end.

End PyStr.

(** ** Diagnostics and exceptions *)

(** An element of an instance path or of a schema path. *)
Inductive path_item : Type :=
| Key (name : string)
| Index (i : Z).

(** An attribute that starts out as the [_unset] sentinel. *)
Inductive attr (A : Type) : Type :=
| unset
| given (a : A).
Arguments unset {A}.
Arguments given {A} a.

Inductive message_text : Type :=
| False_schema_does_not_allow (instance : json)
| Message (text : string).

(** Modelled from the spec: [exceptions.ValidationError], the diagnostic
    record (message, keyword, keyword value, instance, schema, instance
    path, schema path, child diagnostics).  The keyword, its value, the
    instance and the schema may be left unset by the failure site. *)
Inductive ValidationError : Type :=
  mkValidationError {
    message : message_text;
    validator : attr (option string);
    validator_value : attr json;
    instance : attr json;
    schema : attr json;
    path : list path_item;
    schema_path : list path_item;
    context : list ValidationError
  }.

Inductive exn : Type :=
| Raised_ValidationError (e : ValidationError)
| SchemaError (e : ValidationError)
| RefResolutionError_unresolvable_pointer (fragment : string)
| RefResolutionError_empty_stack
| RefResolutionError_from (cause : exn)
| AttributeError
| TypeError
| KeyError
| IndexError
| ValueError
| RecursionError
| Other_exception (name : string).

Definition is_RefResolutionError (x : exn) : bool :=
  match x with
  | RefResolutionError_unresolvable_pointer _
  | RefResolutionError_empty_stack
  | RefResolutionError_from _ => true
  | _ => false
  end.

(** The outcome of a call that may raise. *)
Inductive result (A : Type) : Type :=
| Ok (a : A)
| Err (x : exn).
Arguments Ok {A} a.
Arguments Err {A} x.

#[global] Instance result_ret : MRet result := fun A a => Ok a.
#[global] Instance result_bind : MBind result :=
  fun A B f m => match m with Ok a => f a | Err x => Err x end.
#[global] Instance result_fmap : FMap result :=
  fun A B f m => match m with Ok a => Ok (f a) | Err x => Err x end.

(** [x.rstrip("/")], an [AttributeError] on anything but a string *)
Definition rstrip_slash (x : json) : result string :=
  match x with
  | JStr s => Ok (PyStr.rstrip "/" s)
  | _ => Err AttributeError
  end.

(** ** RefResolver *)

Record RefResolver : Type := mkRefResolver {
  referrer : json;
  cache_remote : bool;
  _scopes_stack : list json;
  store : gmap string json
}.

Definition with_stack (stack : list json) (r : RefResolver) : RefResolver :=
  {| referrer := referrer r; cache_remote := cache_remote r;
     _scopes_stack := stack; store := store r |}.

Definition with_store (st : gmap string json) (r : RefResolver) : RefResolver :=
  {| referrer := referrer r; cache_remote := cache_remote r;
     _scopes_stack := _scopes_stack r; store := st |}.

(** [self._scopes_stack[-1]] *)
Definition resolution_scope (r : RefResolver) : result json :=
  match last (_scopes_stack r) with
  | Some s => Ok s
  | None => Err IndexError
  end.

Definition scopes_stack_copy (r : RefResolver) : list json := _scopes_stack r.

Definition pop_scope (r : RefResolver) : result RefResolver :=
  match _scopes_stack r with
  | [] => Err RefResolutionError_empty_stack
  | _ => Ok (with_stack (removelast (_scopes_stack r)) r)
  end.

(** [_finditem]: the dicts that hold [key], the document first, then the
    dicts below each dict-valued member, in member order.  Lists are not
    entered. *)
Fixpoint _finditem (key : string) (schema : json) : list json :=
  match schema with
  | JObj members =>
      (if dict_has key members then [schema] else []) ++
      (fix values (m : list (string * json)) : list json :=
         match m with
         | [] => []
         | (_, v) :: rest =>
             (match v with JObj _ => _finditem key v | _ => [] end) ++ values rest
         end) members
  | _ => []
  end.

(** What [document[part]] is asked with. *)
Inductive subscript : Type :=
| by_str (s : string)
| by_int (i : Z).

(** [seq[i]] with Python's negative indices; [None] is [IndexError]. *)
Definition py_index {A : Type} (nth : nat -> option A) (len : nat) (i : Z) : option A :=
  if (0 <=? i) && (i <? Z.of_nat len) then nth (Z.to_nat i)
  else if (Z.opp (Z.of_nat len) <=? i) && (i <? 0) then nth (Z.to_nat (Z.of_nat len + i))
  else None.

(** [document[part]]; [None] is a [TypeError] or a [LookupError]. *)
Definition getitem (document : json) (part : subscript) : option json :=
  match document, part with
  | JObj members, by_str s => dict_get s members
  | JArr items, by_int i => py_index (fun n => items !! n) (length items) i
  | JStr s, by_int i =>
      (fun a => JStr (String a EmptyString))
        <$> py_index (fun n => PyStr.nth_char n s) (String.length s) i
  | _, _ => None
  end.

(** [isinstance(document, Sequence)] *)
Definition is_Sequence (document : json) : bool :=
  match document with
  | JArr _ | JStr _ => true
  | _ => false
  end.

Definition unescape (part : string) : string :=
  PyStr.replace "~0" "~" (PyStr.replace "~1" "/" part).

(** The body of the loop over [parts] in [resolve_fragment]. *)
Definition walk_step (fragment : string) (document : json) (part : string) : result json :=
  let part := unescape part in
  let part :=
    if is_Sequence document
    then match PyStr.int part with Some i => by_int i | None => by_str part end
    else by_str part in
  match getitem document part with
  | Some d => Ok d
  | None => Err (RefResolutionError_unresolvable_pointer fragment)
  end.

Fixpoint walk (fragment : string) (document : json) (parts : list string) : result json :=
  match parts with
  | [] => Ok document
  | part :: rest => d ← walk_step fragment document part; walk fragment d rest
  end.

(** The first dict found by [_finditem document keyword] whose [keyword]
    member equals [fragment]. *)
Definition find_anchor (keyword fragment : string) (document : json) : option json :=
  List.find
    (fun subschema =>
       match subschema with
       | JObj members =>
           match dict_get keyword members with
           | Some (JStr name) => String.eqb fragment name
           | _ => false
           end
       | _ => false
       end)
    (_finditem keyword document).

Section Resolver.

(** The collaborators of the resolver, from [urllib] and [_utils]:
    [urljoin] (behind [_urljoin_cache]), [urldefrag], [unquote],
    [URIDict.normalize], and the retrieval of a remote document by
    [resolve_remote] (scheme handlers, [requests] or [urlopen]). *)
Variable urljoin : json -> json -> result json.
Variable urldefrag : string -> result (string * string).
Variable unquote : string -> string.
Variable uri_normalize : json -> result string.
Variable fetch : string -> result json.

Definition push_scope (scope : json) (r : RefResolver) : result RefResolver :=
  top ← resolution_scope r;
  joined ← urljoin top scope;
  Ok (with_stack (_scopes_stack r ++ [joined]) r).

Definition resolve_fragment (document : json) (fragment : string) : result json :=
  let fragment := PyStr.lstrip "/" fragment in
  let anchored :=
    if String.eqb fragment "" then None
    else match find_anchor "$anchor" fragment document with
         | Some subschema => Some subschema
         | None => find_anchor "$dynamicAnchor" fragment document
         end in
  match anchored with
  | Some subschema => Ok subschema
  | None =>
      let parts :=
        if String.eqb fragment "" then [] else PyStr.split "/" (unquote fragment) in
      walk fragment document parts
  end.

(** The loop of [resolve_local] over the dicts that hold ["$id"]. *)
Fixpoint resolve_local_in (r : RefResolver) (uri fragment : string)
    (subschemas : list json) : result (option json) :=
  match subschemas with
  | [] => Ok None
  | subschema :: rest =>
      scope ← resolution_scope r;
      target_uri ← urljoin scope
        (match subschema with
         | JObj members => default JNull (dict_get "$id" members)
         | _ => JNull
         end);
      target ← rstrip_slash target_uri;
      if String.eqb target (PyStr.rstrip "/" uri) then
        if String.eqb fragment "" then Ok (Some subschema)
        else Some <$> resolve_fragment subschema fragment
      else resolve_local_in r uri fragment rest
  end.

(** [resolve_local]: [Ok None] is the [None] returned when the loop ends. *)
Definition resolve_local (r : RefResolver) (url : string) (schema : json)
    : result (option json) :=
  '(uri, fragment) ← urldefrag url;
  resolve_local_in r uri fragment (_finditem "$id" schema).

(** [self.store[uri] = document] *)
Definition store_set (uri : json) (document : json) (r : RefResolver)
    : result RefResolver :=
  key ← uri_normalize uri;
  Ok (with_store (<[key := document]> (store r)) r).

Definition resolve_remote (uri : string) (r : RefResolver)
    : result json * RefResolver :=
  match fetch uri with
  | Err x => (Err x, r)
  | Ok document =>
      if cache_remote r then
        match store_set (JStr uri) document r with
        | Ok r' => (Ok document, r')
        | Err x => (Err x, r)
        end
      else (Ok document, r)
  end.

Definition resolve_from_url (url : string) (r : RefResolver)
    : result json * RefResolver :=
  match urldefrag url with
  | Err x => (Err x, r)
  | Ok (url, fragment) =>
      match uri_normalize (JStr url) with
      | Err x => (Err x, r)
      | Ok key =>
          match store r !! key with
          | Some document => (resolve_fragment document fragment, r)
          | None =>
              match resolve_remote url r with
              | (Ok document, r') => (resolve_fragment document fragment, r')
              | (Err exc, r') => (Err (RefResolutionError_from exc), r')
              end
          end
      end
  end.

(** [resolve]: the pair [(url, resolved)], and the resolver as the call
    leaves it. *)
Definition resolve (ref : json) (r : RefResolver)
    : result (string * json) * RefResolver :=
  match (scope ← resolution_scope r; joined ← urljoin scope ref; rstrip_slash joined) with
  | Err x => (Err x, r)
  | Ok url =>
      match resolve_local r url (referrer r) with
      | Err x => (Err x, r)
      | Ok local_resolve =>
          if truthy (default JNull local_resolve)
          then (Ok (url, default JNull local_resolve), r)
          else match resolve_from_url url r with
               | (Ok document, r') => (Ok (url, document), r')
               | (Err x, r') => (Err x, r')
               end
      end
  end.

End Resolver.

(** ** Keyword callables *)

(** How far the consumer of a generator drives it: to exhaustion, or to
    its first diagnostic, after which the generator is dropped.  CPython
    closes a dropped generator at once, which runs its pending [finally]
    blocks and those of the generators it was driving. *)
Inductive demand : Type :=
| All
| First.

(** How a generator stopped: exhausted, closed by its consumer after a
    diagnostic ([GeneratorExit] unwinds it), or by an exception. *)
Inductive stop : Type :=
| Finished
| Closed
| Raised (x : exn).

Record outcome : Type := mkOutcome {
  yielded : list ValidationError;
  how : stop;
  resolver_after : RefResolver
}.

(** The body of a keyword callable, as far as the engine and the resolver
    see it.  A callable reaches the scope stack only through the engine
    ([descend], [iter_errors], [is_valid]) and through the context managers
    [in_scope] and [resolving].
    - [Descend i s p sp k]: [yield from validator.descend(i, s, p, sp)]
    - [Collect i s p sp k]: [errs = list(validator.descend(i, s, p, sp))]
    - [Is_valid i s k]: [validator.is_valid(i, s)]
    - [In_scope scope body k]: [with resolver.in_scope(scope): body]
    - [Resolving ref body k]: [with resolver.resolving(ref) as resolved: body]
    - [Scopes k]: [resolver.scopes_stack_copy]
    A diagnostic is a value: [Yield e k] hands over a diagnostic object
    that this generator has not handed over before, as the callables of
    [_validators] do. *)
Inductive prog : Type :=
| Return
| Yield (e : ValidationError) (next : prog)
| Raise (x : exn)
| Descend (instance schema : json) (path schema_path : option path_item) (next : prog)
| Collect (instance schema : json) (path schema_path : option path_item)
    (next : list ValidationError -> prog)
| Is_valid (instance schema : json) (next : bool -> prog)
| In_scope (scope : json) (body : prog) (next : prog)
| Resolving (ref : json) (body : json -> prog) (next : prog)
| Scopes (next : list json -> prog).

(** A keyword callable, applied to the keyword's value, the instance and
    the schema; the engine it is given is the one that runs it. *)
Definition callable : Type := json -> json -> json -> prog.

(** Modelled from the spec: [_types.TypeChecker], which tells whether an
    instance is of a named type; [None] stands for a type name it does
    not define. *)
Record TypeChecker : Type := mkTypeChecker {
  checker_is_type : json -> string -> option bool
}.

(** The class that [create] returns: its class attributes and the two
    functions its methods close over.  [META_SCHEMA] is a dict, given by
    its members. *)
Record Class : Type := mkClass {
  VALIDATORS : gmap string callable;
  META_SCHEMA : list (string * json);
  VOCABULARY_SCHEMAS : list json;
  TYPE_CHECKER : TypeChecker;
  ID_OF : json -> result json;
  applicable_validators : json -> result (list (string * json))
}.

(** An instance of such a class; its resolver is threaded through the
    calls, and the format checker is not consulted by the engine. *)
Record Validator : Type := mkValidator {
  class_of : Class;
  self_schema : json
}.

(** Modelled from the spec: [_Error._set], which fills the attributes that
    are still unset and leaves the others. *)
Definition fill {A : Type} (old : attr A) (new : A) : attr A :=
  match old with unset => given new | given _ => old end.

Definition _set (k : string) (v instance_ schema_ : json) (e : ValidationError)
    : ValidationError :=
  {| message := message e;
     validator := fill (validator e) (Some k);
     validator_value := fill (validator_value e) v;
     instance := fill (instance e) instance_;
     schema := fill (schema e) schema_;
     path := path e;
     schema_path := schema_path e;
     context := context e |}.

Definition schema_path_appendleft (item : path_item) (e : ValidationError)
    : ValidationError :=
  {| message := message e; validator := validator e;
     validator_value := validator_value e; instance := instance e;
     schema := schema e; path := path e;
     schema_path := item :: schema_path e; context := context e |}.

Definition path_appendleft (item : path_item) (e : ValidationError)
    : ValidationError :=
  {| message := message e; validator := validator e;
     validator_value := validator_value e; instance := instance e;
     schema := schema e; path := item :: path e;
     schema_path := schema_path e; context := context e |}.

(** [k not in {"if", "$ref"}] *)
Definition decorates_path (k : string) : bool :=
  negb (String.eqb k "if" || String.eqb k "$ref").

(** What the loop of [iter_errors] does to a diagnostic of keyword [k]. *)
Definition stamp (k : string) (v instance_ schema_ : json) (e : ValidationError)
    : ValidationError :=
  let e := _set k v instance_ schema_ e in
  if decorates_path k then schema_path_appendleft (Key k) e else e.

(** What [descend] does to a diagnostic. *)
Definition descend_stamp (path_ schema_path_ : option path_item) (e : ValidationError)
    : ValidationError :=
  let e := match path_ with Some p => path_appendleft p e | None => e end in
  match schema_path_ with Some p => schema_path_appendleft p e | None => e end.

Definition false_schema_error (instance_ : json) : ValidationError :=
  {| message := False_schema_does_not_allow instance_;
     validator := given None;
     validator_value := given JNull;
     instance := given instance_;
     schema := given (JBool false);
     path := []; schema_path := []; context := [] |}.

(** ** Generators *)

Definition finished (r : RefResolver) : outcome := mkOutcome [] Finished r.
Definition raised (x : exn) (r : RefResolver) : outcome := mkOutcome [] (Raised x) r.

(** [yield e], then the rest of the generator. *)
Definition yield (d : demand) (e : ValidationError) (r : RefResolver)
    (rest : RefResolver -> outcome) : outcome :=
  match d with
  | First => mkOutcome [e] Closed r
  | All => let o := rest r in mkOutcome (e :: yielded o) (how o) (resolver_after o)
  end.

(** Sequencing: [rest] runs when the first part was exhausted. *)
Definition and_then (o : outcome) (rest : RefResolver -> outcome) : outcome :=
  match how o with
  | Finished =>
      let o' := rest (resolver_after o) in
      mkOutcome (yielded o ++ yielded o') (how o') (resolver_after o')
  | _ => o
  end.

Definition map_yielded (f : ValidationError -> ValidationError) (o : outcome) : outcome :=
  mkOutcome (f <$> yielded o) (how o) (resolver_after o).

(** [finally: self.pop_scope()] after a body that ended as [o]. *)
Definition finally_pop (o : outcome) : outcome :=
  match pop_scope (resolver_after o) with
  | Ok r => mkOutcome (yielded o) (how o) r
  | Err x => mkOutcome (yielded o) (Raised x) (resolver_after o)
  end.

(** [next(generator, None)] *)
Definition next_or_None (o : outcome) : result (option ValidationError) :=
  match yielded o with
  | e :: _ => Ok (Some e)
  | [] => match how o with Raised x => Err x | _ => Ok None end
  end.

Section Engine.

Variable urljoin : json -> json -> result json.
Variable urldefrag : string -> result (string * string).
Variable unquote : string -> string.
Variable uri_normalize : json -> result string.
Variable fetch : string -> result json.

Local Abbreviation push_scope := (push_scope urljoin).
Local Abbreviation resolve := (resolve urljoin urldefrag unquote uri_normalize fetch).

Section Run.

(** [self.iter_errors], one call deeper. *)
Variable self_iter_errors : demand -> json -> json -> RefResolver -> outcome.

(** Runs the generator of a keyword callable. *)
Fixpoint run (d : demand) (p : prog) (r : RefResolver) {struct p} : outcome :=
  match p with
  | Return => finished r
  | Yield e next => yield d e r (run d next)
  | Raise x => raised x r
  | Descend i s path_ schema_path_ next =>
      and_then (map_yielded (descend_stamp path_ schema_path_) (self_iter_errors d i s r))
               (run d next)
  | Collect i s path_ schema_path_ next =>
      let o := self_iter_errors All i s r in
      match how o with
      | Finished =>
          run d (next (descend_stamp path_ schema_path_ <$> yielded o)) (resolver_after o)
      | h => mkOutcome [] h (resolver_after o)
      end
  | Is_valid i s next =>
      let o := self_iter_errors First i s r in
      match next_or_None o with
      | Ok error =>
          run d (next (match error with None => true | Some _ => false end))
              (resolver_after o)
      | Err x => raised x (resolver_after o)
      end
  | In_scope scope body next =>
      match push_scope scope r with
      | Err x => raised x r
      | Ok r1 => and_then (finally_pop (run d body r1)) (run d next)
      end
  | Resolving ref body next =>
      match resolve ref r with
      | (Err x, r0) => raised x r0
      | (Ok (url, resolved), r0) =>
          match push_scope (JStr url) r0 with
          | Err x => raised x r0
          | Ok r1 => and_then (finally_pop (run d (body resolved) r1)) (run d next)
          end
      end
  | Scopes next => run d (next (scopes_stack_copy r)) r
  end.

(** The loop of [iter_errors] over the applicable (keyword, value) pairs. *)
Fixpoint each_keyword (table : gmap string callable) (d : demand)
    (instance_ _schema : json) (pairs : list (string * json)) (r : RefResolver)
    : outcome :=
  match pairs with
  | [] => finished r
  | (k, v) :: rest =>
      match table !! k with
      | None => each_keyword table d instance_ _schema rest r
      | Some validator_ =>
          and_then
            (map_yielded (stamp k v instance_ _schema)
               (run d (validator_ v instance_ _schema) r))
            (each_keyword table d instance_ _schema rest)
      end
  end.

(** The [try] block of [iter_errors]. *)
Definition try_block (cls : Class) (d : demand) (instance_ _schema : json)
    (r : RefResolver) : outcome :=
  match applicable_validators cls _schema with
  | Err x => raised x r
  | Ok pairs => each_keyword (VALIDATORS cls) d instance_ _schema pairs r
  end.

Definition iter_errors_body (self : Validator) (d : demand)
    (instance_ _schema : json) (r : RefResolver) : outcome :=
  let _schema := match _schema with JNull => self_schema self | _ => _schema end in
  match _schema with
  | JBool true => finished r
  | JBool false => yield d (false_schema_error instance_) r finished
  | _ =>
      match ID_OF (class_of self) _schema with
      | Err x => raised x r
      | Ok scope =>
          if truthy scope then
            match push_scope scope r with
            | Err x => raised x r
            | Ok r1 => finally_pop (try_block (class_of self) d instance_ _schema r1)
            end
          else try_block (class_of self) d instance_ _schema r
      end
  end.

End Run.

(** [Validator.iter_errors].  [depth] is what is left of the interpreter's
    recursion limit, which is spent one unit per nested call of the engine
    and raises [RecursionError] when it is used up.  [_schema = JNull] is
    the default argument [None]. *)
Fixpoint iter_errors (depth : nat) (self : Validator) (d : demand)
    (instance_ _schema : json) (r : RefResolver) : outcome :=
  match depth with
  | O => raised RecursionError r
  | S depth' => iter_errors_body (iter_errors depth' self) self d instance_ _schema r
  end.

(** [Validator.descend], as the caller of the engine sees it. *)
Definition descend (depth : nat) (self : Validator) (d : demand)
    (instance_ schema_ : json) (path_ schema_path_ : option path_item)
    (r : RefResolver) : outcome :=
  map_yielded (descend_stamp path_ schema_path_) (iter_errors depth self d instance_ schema_ r).

(** [Validator.validate]: [for error in self.iter_errors(...): raise error] *)
Definition Validator_validate (depth : nat) (self : Validator)
    (instance_ _schema : json) (r : RefResolver) : result unit * RefResolver :=
  let o := iter_errors depth self First instance_ _schema r in
  (match next_or_None o with
   | Ok (Some error) => Err (Raised_ValidationError error)
   | Ok None => Ok tt
   | Err x => Err x
   end, resolver_after o).

(** [Validator.is_valid] *)
Definition is_valid (depth : nat) (self : Validator)
    (instance_ _schema : json) (r : RefResolver) : result bool * RefResolver :=
  let o := iter_errors depth self First instance_ _schema r in
  (match next_or_None o with
   | Ok error => Ok (match error with None => true | Some _ => false end)
   | Err x => Err x
   end, resolver_after o).

End Engine.

(** ** Variant construction and selection *)

(** The module-level tables [validators], [meta_schemas] and
    [_VOCABULARIES].  The last two are [URIDict]s; modelled from the spec:
    a [URIDict] is a dict whose key is normalised on every access by
    key. *)
Record Registry : Type := mkRegistry {
  validators : gmap string Class;
  meta_schemas : gmap string Class;
  _VOCABULARIES : gmap string json
}.

Inductive warning : Type :=
| DeprecationWarning (text : string).

Definition metaschema_not_found : warning :=
  DeprecationWarning
    ("The metaschema specified by $schema was not found. "
     +:+ "Using the latest draft to validate, but this will raise "
     +:+ "an error in the future.").

Definition _id_of (schema_ : json) : result json :=
  match schema_ with
  | JBool _ => Ok (JStr "")
  | JObj members => Ok (default (JStr "") (dict_get "$id" members))
  | _ => Err AttributeError
  end.

(** [lambda schema: schema.items()], the default of [create] *)
Definition schema_items (schema_ : json) : result (list (string * json)) :=
  match schema_ with
  | JObj members => Ok members
  | _ => Err AttributeError
  end.

(** [sub in s] for strings *)
Fixpoint str_contains (sub s : string) : bool :=
  String.prefix sub s ||
  match s with
  | EmptyString => false
  | String _ t => str_contains sub t
  end.

(** [key in x], a [TypeError] on a value that is not a container *)
Definition py_in (key : string) (x : json) : result bool :=
  match x with
  | JObj members => Ok (dict_has key members)
  | JArr items =>
      Ok (existsb (fun i => match i with JStr s => String.eqb s key | _ => false end) items)
  | JStr s => Ok (str_contains key s)
  | _ => Err TypeError
  end.

(** [x[key]] for a string [key] *)
Definition py_getitem_str (key : string) (x : json) : result json :=
  match x with
  | JObj members =>
      match dict_get key members with Some v => Ok v | None => Err KeyError end
  | _ => Err TypeError
  end.

Section Variants.

Variable uri_normalize : json -> result string.

(** [_types.draft7_type_checker], the default type checker of [create]. *)
Variable draft7_type_checker : TypeChecker.

(** [_LATEST_VERSION] *)
Variable _LATEST_VERSION : Class.

(** [d[uri]] on a [URIDict]; [Ok None] is its [KeyError]. *)
Definition uridict_get {A : Type} (d : gmap string A) (uri : json) : result (option A) :=
  key ← uri_normalize uri;
  Ok (d !! key).

(** [d[uri] = value] on a [URIDict] *)
Definition uridict_set {A : Type} (uri : json) (value : A) (d : gmap string A)
    : result (gmap string A) :=
  key ← uri_normalize uri;
  Ok (<[key := value]> d).

(** The loop of [_validates] over the vocabulary schemas. *)
Fixpoint register_vocabularies (id_of : json -> result json) (vocabularies : list json)
    (reg : Registry) : result unit * Registry :=
  match vocabularies with
  | [] => (Ok tt, reg)
  | vocabulary :: rest =>
      match (vocabulary_id ← id_of vocabulary;
             uridict_set vocabulary_id vocabulary (_VOCABULARIES reg)) with
      | Err x => (Err x, reg)
      | Ok table =>
          register_vocabularies id_of rest
            (mkRegistry (validators reg) (meta_schemas reg) table)
      end
  end.

(** [validates(version)(cls)]; the tables keep what was written before an
    exception. *)
Definition validates (version : string) (cls : Class) (reg : Registry)
    : result Class * Registry :=
  let reg := mkRegistry (<[version := cls]> (validators reg))
                        (meta_schemas reg) (_VOCABULARIES reg) in
  match (meta_schema_id ← ID_OF cls (JObj (META_SCHEMA cls));
         uridict_set meta_schema_id cls (meta_schemas reg)) with
  | Err x => (Err x, reg)
  | Ok table =>
      match register_vocabularies (ID_OF cls) (VOCABULARY_SCHEMAS cls)
              (mkRegistry (validators reg) table (_VOCABULARIES reg)) with
      | (Ok _, reg') => (Ok cls, reg')
      | (Err x, reg') => (Err x, reg')
      end
  end.

(** [create].  An optional argument that is left out is [None]. *)
Definition create (meta_schema : list (string * json))
    (vocabulary_schemas : option (list json))
    (validators_ : option (gmap string callable))
    (version : option string)
    (type_checker : option TypeChecker)
    (id_of : option (json -> result json))
    (applicable_validators_ : option (json -> result (list (string * json))))
    (reg : Registry) : result Class * Registry :=
  let cls :=
    {| VALIDATORS := default ∅ validators_;
       META_SCHEMA := meta_schema;
       VOCABULARY_SCHEMAS := default [] vocabulary_schemas;
       TYPE_CHECKER := default draft7_type_checker type_checker;
       ID_OF := default _id_of id_of;
       applicable_validators := default schema_items applicable_validators_ |} in
  match version with
  | Some v => validates v cls reg
  | None => (Ok cls, reg)
  end.

(** [extend] *)
Definition extend (validator_ : Class) (validators_ : option (gmap string callable))
    (version : option string) (type_checker : option TypeChecker)
    (reg : Registry) : result Class * Registry :=
  let all_validators := default ∅ validators_ ∪ VALIDATORS validator_ in
  let type_checker :=
    match type_checker with
    | None => TYPE_CHECKER validator_
    | Some t => t
    end in
  create (META_SCHEMA validator_) None (Some all_validators) version
         (Some type_checker) (Some (ID_OF validator_)) None reg.

(** [validator_for]: the class, or the exception, and the warnings issued. *)
Definition validator_for (reg : Registry) (schema_ : json) (default_ : option Class)
    : result Class * list warning :=
  let default_ := default _LATEST_VERSION default_ in
  match schema_ with
  | JBool _ => (Ok default_, [])
  | _ =>
      match py_in "$schema" schema_ with
      | Err x => (Err x, [])
      | Ok false => (Ok default_, [])
      | Ok true =>
          match (uri ← py_getitem_str "$schema" schema_;
                 uridict_get (meta_schemas reg) uri) with
          | Err x => (Err x, [])
          | Ok (Some cls) => (Ok cls, [])
          | Ok None => (Ok _LATEST_VERSION, [metaschema_not_found])
          end
      end
  end.

(** [_store_schema_list()] as the dict it is turned into: the vocabulary
    schemas come last in the list and win. *)
Definition _store_schema_list (reg : Registry) : gmap string json :=
  _VOCABULARIES reg ∪ ((fun cls => JObj (META_SCHEMA cls)) <$> meta_schemas reg).

(** [RefResolver.__init__] with the default [store], [cache_remote] and
    [handlers] *)
Definition RefResolver_init (reg : Registry) (base_uri referrer_ : json)
    : result RefResolver :=
  key ← uri_normalize base_uri;
  Ok {| referrer := referrer_;
        cache_remote := true;
        _scopes_stack := [base_uri];
        store := <[key := referrer_]> (_store_schema_list reg) |}.

(** [RefResolver.from_schema] *)
Definition from_schema (reg : Registry) (id_of : json -> result json) (schema_ : json)
    : result RefResolver :=
  base_uri ← id_of schema_;
  RefResolver_init reg base_uri schema_.

(** [cls(schema, resolver)]: the instance and the resolver it holds. *)
Definition Validator_init (reg : Registry) (cls : Class) (schema_ : json)
    (resolver : option RefResolver) : result (Validator * RefResolver) :=
  resolver ← match resolver with
             | None => from_schema reg (ID_OF cls) schema_
             | Some r => Ok r
             end;
  Ok (mkValidator cls schema_, resolver).

End Variants.

(** ** Entry points that build their own engine *)

Section Entry_points.

Variable urljoin : json -> json -> result json.
Variable urldefrag : string -> result (string * string).
Variable unquote : string -> string.
Variable uri_normalize : json -> result string.
Variable fetch : string -> result json.
Variable _LATEST_VERSION : Class.

(** [exceptions.best_match], applied to the diagnostics of an exhausted
    generator. *)
Variable best_match : list ValidationError -> option ValidationError.

Local Abbreviation iter_errors := (iter_errors urljoin urldefrag unquote uri_normalize fetch).

(** [Validator.check_schema], a class method *)
Definition check_schema (depth : nat) (reg : Registry) (cls : Class) (schema_ : json)
    : result unit :=
  '(meta_validator, resolver) ←
    Validator_init uri_normalize reg cls (JObj (META_SCHEMA cls)) None;
  match next_or_None (iter_errors depth meta_validator First schema_ JNull resolver) with
  | Ok (Some error) => Err (SchemaError error)
  | Ok None => Ok tt
  | Err x => Err x
  end.

(** The module-level [validate]; [resolver] is the one optional argument
    that is passed on to the class. *)
Definition validate (depth : nat) (reg : Registry) (instance_ schema_ : json)
    (cls : option Class) (resolver : option RefResolver)
    : result unit * list warning :=
  let '(selected, warnings) :=
    match cls with
    | None => validator_for uri_normalize _LATEST_VERSION reg schema_ None
    | Some c => (Ok c, [])
    end in
  (cls ← selected;
   _ ← check_schema depth reg cls schema_;
   '(validator_, resolver) ← Validator_init uri_normalize reg cls schema_ resolver;
   let o := iter_errors depth validator_ All instance_ JNull resolver in
   match how o with
   | Raised x => Err x
   | _ =>
       match best_match (yielded o) with
       | Some error => Err (Raised_ValidationError error)
       | None => Ok tt
       end
   end,
   warnings).

End Entry_points.

(** ** Stand-ins for the collaborators, for closed examples

    Each agrees with the collaborator it stands for on the inputs the
    examples give it: URIs that are absolute or empty, without percent
    escapes, and no network. *)

(** [urljoin] when the reference is an absolute URI or one of the two is
    empty: [if not base: return url], [if not url: return base], and an
    absolute reference replaces the base. *)
Definition urljoin_absolute (base url : json) : result json :=
  Ok (if truthy base then (if truthy url then url else base) else url).

(** [urldefrag]: the URI up to its first ["#"], and what follows it. *)
Fixpoint cut_at_hash (url : string) : string * string :=
  match url with
  | EmptyString => (EmptyString, EmptyString)
  | String a t =>
      if Ascii.eqb a "#" then (EmptyString, t)
      else let '(u, f) := cut_at_hash t in (String a u, f)
  end.

Definition urldefrag_plain (url : string) : result (string * string) :=
  Ok (cut_at_hash url).

(** [unquote] on a string without percent escapes. *)
Definition unquote_plain (s : string) : string := s.

Definition hex_digit (a : ascii) : option nat :=
  let n := nat_of_ascii a in
  if ((48 <=? n) && (n <=? 57))%nat then Some (n - 48)%nat
  else if ((65 <=? n) && (n <=? 70))%nat then Some (n - 55)%nat
  else if ((97 <=? n) && (n <=? 102))%nat then Some (n - 87)%nat
  else None.

(** [unquote] on a string whose percent escapes, if any, stand for ASCII
    characters: each ["%XX"] below 128 is decoded, anything else is left
    as it is. *)
Fixpoint unquote_ascii (s : string) : string :=
  match s with
  | String "%" (String h (String l t) as rest) =>
      match hex_digit h, hex_digit l with
      | Some x, Some y =>
          if (16 * x + y <? 128)%nat
          then String (ascii_of_nat (16 * x + y)) (unquote_ascii t)
          else String "%" (unquote_ascii rest)
      | _, _ => String "%" (unquote_ascii rest)
      end
  | String a t => String a (unquote_ascii t)
  | EmptyString => EmptyString
  end.

(** [URIDict.normalize] on a URI that is already in normal form. *)
Definition normalize_plain (uri : json) : result string :=
  match uri with
  | JStr s => Ok s
  | _ => Err AttributeError
  end.

(** No document can be retrieved. *)
Definition fetch_offline (uri : string) : result json :=
  Err (Other_exception "URLError").

(** [pointer.replace("~", "~0").replace("/", "~1")], how a property name is
    written as a pointer segment. *)
Fixpoint escape (name : string) : string :=
  match name with
  | EmptyString => EmptyString
  | String a t =>
      if Ascii.eqb a "~" then String "~" (String "0" (escape t))
      else if Ascii.eqb a "/" then String "~" (String "1" (escape t))
      else String a (escape t)
  end.

(** The claim's reading of [resolve_fragment]: an anchor named by the
    fragment as it is given, carried by any subdocument, otherwise the
    fragment as a JSON pointer, whose segments follow each ["/"]; an
    error names the fragment as it is given. *)
Definition pointer_segments (fragment : string) : list string :=
  match fragment with
  | EmptyString => []
  | String a t => if Ascii.eqb a "/" then PyStr.split "/" t else PyStr.split "/" fragment
  end.

(** The document and everything below it, through dicts and lists. *)
Fixpoint subdocuments (document : json) : list json :=
  document ::
  match document with
  | JObj members =>
      (fix values (m : list (string * json)) : list json :=
         match m with
         | [] => []
         | (_, v) :: rest => subdocuments v ++ values rest
         end) members
  | JArr items =>
      (fix each (l : list json) : list json :=
         match l with
         | [] => []
         | v :: rest => subdocuments v ++ each rest
         end) items
  | _ => []
  end.

Definition find_anchor_anywhere (keyword fragment : string) (document : json)
    : option json :=
  List.find
    (fun subschema =>
       match subschema with
       | JObj members =>
           match dict_get keyword members with
           | Some (JStr name) => String.eqb fragment name
           | _ => false
           end
       | _ => false
       end)
    (subdocuments document).

Definition resolve_fragment_as_claimed (document : json) (fragment : string) : result json :=
  match find_anchor_anywhere "$anchor" fragment document with
  | Some subschema => Ok subschema
  | None =>
      match find_anchor_anywhere "$dynamicAnchor" fragment document with
      | Some subschema => Ok subschema
      | None => walk fragment document (pointer_segments fragment)
      end
  end.

(** [name.replace("~", "~0")], the first half of [escape] *)
Fixpoint escape_tilde (name : string) : string :=
  match name with
  | EmptyString => EmptyString
  | String a t =>
      if Ascii.eqb a "~" then String "~" (String "0" (escape_tilde t))
      else String a (escape_tilde t)
  end.

(** The claim's words for a segment that cannot be resolved at a node: the
    key is absent, the index is out of range (or the segment is not an
    index at all), or the node is not indexable. *)
Definition out_of_range (len : nat) (i : Z) : Prop :=
  i < - Z.of_nat len \/ Z.of_nat len <= i.

Definition cannot_be_resolved (document : json) (part : string) : Prop :=
  match document with
  | JObj members => dict_get (unescape part) members = None
  | JArr items =>
      match PyStr.int (unescape part) with
      | Some i => out_of_range (length items) i
      | None => True
      end
  | JStr s =>
      match PyStr.int (unescape part) with
      | Some i => out_of_range (String.length s) i
      | None => True
      end
  | _ => True
  end.

(** [subschema] is a dict whose member [keyword] is the string [name]. *)
Definition names_anchor (keyword name : string) (subschema : json) : Prop :=
  exists members, subschema = JObj members /\ dict_get keyword members = Some (JStr name).

(** [subschema] is a local match for [uri] in the scope of [r]: its
    ["$id"], joined against the current scope, is [uri] up to trailing
    slashes. *)
Definition local_match (urljoin : json -> json -> result json) (r : RefResolver)
    (uri : string) (subschema : json) : Prop :=
  exists members id scope target_uri target,
    subschema = JObj members
    /\ dict_get "$id" members = Some id
    /\ resolution_scope r = Ok scope
    /\ urljoin scope id = Ok target_uri
    /\ rstrip_slash target_uri = Ok target
    /\ target = PyStr.rstrip "/" uri.

(** A referrer without an id of its own, with a subschema that has one:
    [{"definitions": {"a": {"$id": "http://e.com/a",
                            "definitions": {"e": {}}}}}],
    and the resolver [from_schema] builds for it when no meta-schema is
    registered. *)
Definition nested_id_subschema : json :=
  JObj [("$id", JStr "http://e.com/a"); ("definitions", JObj [("e", JObj [])])].

Definition nested_id_document : json :=
  JObj [("definitions", JObj [("a", nested_id_subschema)])].

Definition nested_id_resolver : RefResolver :=
  {| referrer := nested_id_document; cache_remote := true;
     _scopes_stack := [JStr ""]; store := {[ "" := nested_id_document ]} |}.

(** What a consumer that stops at the first diagnostic sees ([first]) of a
    generator that, driven to exhaustion, ends as [all]: the same run when
    there is no diagnostic, and otherwise the first diagnostic only, the
    generator being closed there. *)
Definition cut_at_first (all first : outcome) : Prop :=
  match yielded all with
  | [] => first = all
  | e :: _ => yielded first = [e] /\ how first <> Finished
  end.

(** ** A small variant, for closed examples

    Four keyword callables of the kind [create] is given, written after
    the ones of [_validators], and the class [create] makes of them.  Its
    meta-schema asks every schema for a ["title"]. *)

Definition error_ (text : string) : ValidationError :=
  {| message := Message text; validator := unset; validator_value := unset;
     instance := unset; schema := unset; path := []; schema_path := []; context := [] |}.

(** [required]: one diagnostic for each name that the instance lacks. *)
Definition required_ : callable := fun required instance_ _ =>
  match instance_, required with
  | JObj members, JArr names =>
      fold_right
        (fun name rest =>
           match name with
           | JStr n =>
               if dict_has n members then rest
               else Yield (error_ (n +:+ " is a required property")) rest
           | _ => rest
           end)
        Return names
  | _, _ => Return
  end.

(** [minimum]: one diagnostic for a number below the bound. *)
Definition minimum_ : callable := fun minimum instance_ _ =>
  match instance_, minimum with
  | JNum n, JNum m => if n <? m then Yield (error_ "less than the minimum") Return else Return
  | _, _ => Return
  end.

(** [properties]: descends into each property the instance has. *)
Definition properties_ : callable := fun properties instance_ _ =>
  match instance_, properties with
  | JObj members, JObj subschemas =>
      fold_right
        (fun '(property, subschema) rest =>
           match dict_get property members with
           | Some value =>
               Descend value subschema (Some (Key property)) (Some (Key property)) rest
           | None => rest
           end)
        Return subschemas
  | _, _ => Return
  end.

(** [ref]: validates against the resolved schema, in its scope. *)
Definition ref_ : callable := fun ref instance_ _ =>
  Resolving ref (fun resolved => Descend instance_ resolved None None Return) Return.

Definition no_types : TypeChecker := {| checker_is_type := fun _ _ => None |}.

Definition empty_registry : Registry :=
  {| validators := ∅; meta_schemas := ∅; _VOCABULARIES := ∅ |}.

Definition titled_keywords : gmap string callable :=
  <["required" := required_]> (<["minimum" := minimum_]>
    (<["properties" := properties_]> (<["$ref" := ref_]> ∅))).

Definition titled_meta_schema : list (string * json) :=
  [("required", JArr [JStr "title"])].

(** The class [create(meta_schema={"required": ["title"]},
    validators={...})] returns. *)
Definition TitledValidator : Class :=
  {| VALIDATORS := titled_keywords;
     META_SCHEMA := titled_meta_schema;
     VOCABULARY_SCHEMAS := [];
     TYPE_CHECKER := no_types;
     ID_OF := _id_of;
     applicable_validators := schema_items |}.

(** Modelled from the spec: [_legacy_validators.ignore_ref_siblings], the
    applicable-validators function that ignores the keywords next to a
    ["$ref"]. *)
Definition ignore_ref_siblings (schema_ : json) : result (list (string * json)) :=
  match schema_ with
  | JObj members =>
      match dict_get "$ref" members with
      | Some ref => if match ref with JNull => true | _ => false end
                    then Ok members else Ok [("$ref", ref)]
      | None => Ok members
      end
  | _ => Err AttributeError
  end.

(** The resolver [from_schema] builds for a schema without an id when no
    meta-schema is registered. *)
Definition plain_resolver (referrer_ : json) : RefResolver :=
  {| referrer := referrer_; cache_remote := true;
     _scopes_stack := [JStr ""]; store := {[ "" := referrer_ ]} |}.

(** A parent class that ignores the siblings of ["$ref"] and has one
    vocabulary schema, as the classes of the older drafts and of the
    newer ones have, and the registry after [TitledValidator] was
    registered as ["titled"]. *)
Definition LegacyValidator : Class :=
  {| VALIDATORS := titled_keywords;
     META_SCHEMA := titled_meta_schema;
     VOCABULARY_SCHEMAS := [JObj [("$id", JStr "http://e.com/vocab")]];
     TYPE_CHECKER := no_types;
     ID_OF := _id_of;
     applicable_validators := ignore_ref_siblings |}.

Definition titled_registry : Registry :=
  {| validators := {[ "titled" := TitledValidator ]};
     meta_schemas := {[ "" := TitledValidator ]};
     _VOCABULARIES := ∅ |}.

(** A callable that rejects everything, to overlay on ["minimum"]. *)
Definition never_ : callable := fun _ _ _ => Yield (error_ "never") Return.

(** [best_match] on at most one diagnostic without children: that
    diagnostic, if any. *)
Definition best_match_of_one (errors : list ValidationError) : option ValidationError :=
  head errors.

(** ** Further parts of the resolver *)

Section Base_uri.

Variable urldefrag : string -> result (string * string).

(** [RefResolver.base_uri]: the current scope without its fragment. *)
Definition base_uri (r : RefResolver) : result string :=
  scope ← resolution_scope r;
  match scope with
  | JStr s => fst <$> urldefrag s
  | _ => Err TypeError
  end.

End Base_uri.

(** [s] is reached from [document] through the values of dicts only: it
    is the document, or it is reached from a member of the document. *)
Inductive dict_descendant : json -> json -> Prop :=
| descendant_self (members : list (string * json)) :
    dict_descendant (JObj members) (JObj members)
| descendant_member (members : list (string * json)) (k : string) (v s : json) :
    In (k, v) members -> dict_descendant v s -> dict_descendant (JObj members) s.

(** The JSON pointer to a property reached by a path of property names,
    and the value at the end of such a path. *)
Fixpoint pointer_of (names : list string) : string :=
  match names with
  | [] => EmptyString
  | name :: rest => String "/" (escape name +:+ pointer_of rest)
  end.

Fixpoint lookup_path (names : list string) (document : json) : option json :=
  match names with
  | [] => Some document
  | name :: rest =>
      match document with
      | JObj members =>
          match dict_get name members with
          | Some value => lookup_path rest value
          | None => None
          end
      | _ => None
      end
  end.

(** [c in s] for a character *)
Fixpoint has_char (c : ascii) (s : string) : bool :=
  match s with
  | EmptyString => false
  | String a t => Ascii.eqb a c || has_char c t
  end.

(** [s.endswith(c)] for a character *)
Fixpoint ends_with (c : ascii) (s : string) : bool :=
  match s with
  | EmptyString => false
  | String a EmptyString => Ascii.eqb a c
  | String _ t => ends_with c t
  end.

(** One remote document can be retrieved. *)
Definition remote_document : json :=
  JObj [("definitions", JObj [("m", JObj [("minimum", JNum 5)])])].

Definition fetch_remote (uri : string) : result json :=
  if String.eqb uri "http://e.com/remote" then Ok remote_document
  else Err (Other_exception "URLError").

(** A generator driven to its first diagnostic either produced none, or
    was closed there; closing it can only fail in [pop_scope]. *)
Definition stopped_at_first (o : outcome) : Prop :=
  yielded o = [] \/ how o = Closed \/ how o = Raised RefResolutionError_empty_stack.

(** The run did not end in [RecursionError]. *)
Definition within_recursion_limit (o : outcome) : Prop :=
  how o <> Raised RecursionError.

(** ** The walk of a pointer, said without the loop

    [child_at node part child]: the segment [part], unescaped, leads from
    [node] to [child]: as a property name in a dict, as an index in a
    list or a string, counted from the end when it is negative. *)
Definition item_at {A : Type} (items : list A) (i : Z) (item : A) : Prop :=
  (0 <= i /\ items !! Z.to_nat i = Some item)
  \/ (i < 0 /\ - Z.of_nat (length items) <= i
      /\ items !! Z.to_nat (Z.of_nat (length items) + i) = Some item).

Inductive child_at : json -> string -> json -> Prop :=
| child_member (members : list (string * json)) (part : string) (value : json) :
    dict_get (unescape part) members = Some value ->
    child_at (JObj members) part value
| child_item (items : list json) (part : string) (i : Z) (value : json) :
    PyStr.int (unescape part) = Some i ->
    item_at items i value ->
    child_at (JArr items) part value
| child_char (s : string) (part : string) (i : Z) (a : ascii) :
    PyStr.int (unescape part) = Some i ->
    item_at (list_ascii_of_string s) i a ->
    child_at (JStr s) part (JStr (String a EmptyString)).

Inductive walks_to : json -> list string -> json -> Prop :=
| walks_here (document : json) : walks_to document [] document
| walks_on (document : json) (part : string) (rest : list string) (child value : json) :
    child_at document part child ->
    walks_to child rest value ->
    walks_to document (part :: rest) value.

(** * Properties *)

(** ** Pointer segments *)

Lemma ascii_eqb_false_dec (a b : ascii) :
  Ascii.eqb a b = false -> exists n, ascii_dec b a = right n.
Proof.
  intros H. destruct (ascii_dec b a) as [e | n].
  - subst. rewrite Ascii.eqb_refl in H. discriminate.
  - eauto.
Qed.

Lemma prefix_empty (s : string) : String.prefix "" s = true.
Proof. now destruct s. Qed.

Lemma replace_tilde1_escape (name : string) :
  PyStr.replace "~1" "/" (escape name) = escape_tilde name.
Proof.
  unfold PyStr.replace. induction name as [| a t IH]; [reflexivity |].
  cbn [escape escape_tilde].
  destruct (Ascii.eqb a "~") eqn:Ht.
  - cbn. now rewrite IH.
  - destruct (Ascii.eqb a "/") eqn:Hs.
    + cbn. rewrite IH, prefix_empty, (proj1 (Ascii.eqb_eq _ _) Hs). reflexivity.
    + cbn [PyStr.replace_from String.prefix].
      destruct (ascii_eqb_false_dec _ _ Ht) as [n ->]. now rewrite IH.
Qed.

Lemma replace_tilde0_escape_tilde (name : string) :
  PyStr.replace "~0" "~" (escape_tilde name) = name.
Proof.
  unfold PyStr.replace. induction name as [| a t IH]; [reflexivity |].
  cbn [escape_tilde].
  destruct (Ascii.eqb a "~") eqn:Ht.
  - cbn. rewrite IH, prefix_empty, (proj1 (Ascii.eqb_eq _ _) Ht). reflexivity.
  - cbn [PyStr.replace_from String.prefix].
    destruct (ascii_eqb_false_dec _ _ Ht) as [n ->]. now rewrite IH.
Qed.

Lemma unescape_escape (name : string) : unescape (escape name) = name.
Proof.
  unfold unescape. now rewrite replace_tilde1_escape, replace_tilde0_escape_tilde.
Qed.

Lemma nth_char_in_range (s : string) (n : nat) :
  (n < String.length s)%nat -> is_Some (PyStr.nth_char n s).
Proof.
  revert n. induction s as [| a t IH]; intros n Hn; cbn in *; [lia |].
  destruct n; [eauto | apply IH; lia].
Qed.

Lemma py_index_None {A : Type} (nth : nat -> option A) (len : nat) (i : Z) :
  (forall n, (n < len)%nat -> is_Some (nth n)) ->
  py_index nth len i = None <-> out_of_range len i.
Proof.
  intros Hnth. unfold py_index, out_of_range.
  destruct ((0 <=? i) && (i <? Z.of_nat len)) eqn:H1.
  - apply andb_true_iff in H1 as [?%Z.leb_le ?%Z.ltb_lt].
    destruct (Hnth (Z.to_nat i)) as [x Hx]; [lia |]. rewrite Hx.
    split; [discriminate | lia].
  - destruct ((- Z.of_nat len <=? i) && (i <? 0)) eqn:H2.
    + apply andb_true_iff in H2 as [?%Z.leb_le ?%Z.ltb_lt].
      destruct (Hnth (Z.to_nat (Z.of_nat len + i))) as [x Hx]; [lia |]. rewrite Hx.
      split; [discriminate | lia].
    + split; [intros _ | reflexivity].
      apply andb_false_iff in H1, H2.
      rewrite !Z.leb_gt, !Z.ltb_ge in *. lia.
Qed.

(** A step of the walk fails exactly on a segment that cannot be resolved,
    and then with the resolution error that names the fragment. *)
Lemma walk_step_fails (fragment : string) (document : json) (part : string) :
  walk_step fragment document part = Err (RefResolutionError_unresolvable_pointer fragment)
  <-> cannot_be_resolved document part.
Proof.
  unfold walk_step, cannot_be_resolved.
  destruct document as [| b | n | s | items | members]; cbn [is_Sequence getitem];
    try (split; [intros _; exact I | reflexivity]).
  - destruct (PyStr.int (unescape part)) as [i |]; cbn [getitem];
      [| split; [intros _; exact I | reflexivity]].
    rewrite <- (py_index_None (fun n => PyStr.nth_char n s));
      [| intros; now apply nth_char_in_range].
    destruct (py_index _ _ i); cbn; split; congruence.
  - destruct (PyStr.int (unescape part)) as [i |]; cbn [getitem];
      [| split; [intros _; exact I | reflexivity]].
    rewrite <- (py_index_None (fun n => items !! n));
      [| intros; now apply lookup_lt_is_Some].
    destruct (py_index _ _ i); split; congruence.
  - destruct (dict_get (unescape part) members); split; congruence.
Qed.

Lemma walk_step_error (fragment : string) (document : json) (part : string) (x : exn) :
  walk_step fragment document part = Err x ->
  x = RefResolutionError_unresolvable_pointer fragment.
Proof.
  unfold walk_step. destruct (getitem _ _); congruence.
Qed.

Lemma walk_error (fragment : string) (parts : list string) (document : json) (x : exn) :
  walk fragment document parts = Err x ->
  x = RefResolutionError_unresolvable_pointer fragment.
Proof.
  revert document. induction parts as [| part rest IH]; intros document; cbn.
  - discriminate.
  - destruct (walk_step fragment document part) as [d |] eqn:Hstep; cbn.
    + apply IH.
    + intros [= <-]. eapply walk_step_error, Hstep.
Qed.

Lemma find_anchor_Some (keyword name : string) (document subschema : json) :
  find_anchor keyword name document = Some subschema ->
  In subschema (_finditem keyword document) /\ names_anchor keyword name subschema.
Proof.
  unfold find_anchor. intros H. apply find_some in H as [Hin Hp]. split; [exact Hin |].
  destruct subschema as [| | | | | members]; try discriminate.
  destruct (dict_get keyword members) as [[| | | s | |] |] eqn:Hk; try discriminate.
  apply String.eqb_eq in Hp as ->. now exists members.
Qed.

Lemma find_anchor_None (keyword name : string) (document subschema : json) :
  find_anchor keyword name document = None ->
  In subschema (_finditem keyword document) -> ~ names_anchor keyword name subschema.
Proof.
  unfold find_anchor. intros H Hin [members [-> Hk]].
  pose proof (find_none _ _ H _ Hin) as Hp. cbn in Hp.
  rewrite Hk, String.eqb_refl in Hp. discriminate.
Qed.

Lemma nth_char_lookup (s : string) (n : nat) :
  PyStr.nth_char n s = list_ascii_of_string s !! n.
Proof.
  revert n. induction s as [| a t IH]; intros [| n]; cbn; try reflexivity. apply IH.
Qed.

Lemma length_list_ascii (s : string) : length (list_ascii_of_string s) = String.length s.
Proof. induction s as [| a t IH]; cbn; congruence. Qed.

Lemma py_index_Some {A : Type} (items : list A) (i : Z) (item : A) :
  py_index (fun n => items !! n) (length items) i = Some item <-> item_at items i item.
Proof.
  unfold py_index, item_at.
  destruct ((0 <=? i) && (i <? Z.of_nat (length items))) eqn:H1.
  - apply andb_true_iff in H1 as [H0%Z.leb_le Hlen%Z.ltb_lt].
    split; [intros H; left; auto | intros [[_ H] | [Hneg _]]; [exact H | lia]].
  - destruct ((- Z.of_nat (length items) <=? i) && (i <? 0)) eqn:H2.
    + apply andb_true_iff in H2 as [Hlow%Z.leb_le Hneg%Z.ltb_lt].
      split; [intros H; right; auto | intros [[H0 _] | [_ [_ H]]]; [lia | exact H]].
    + split; [discriminate |].
      apply andb_false_iff in H1, H2. rewrite !Z.leb_gt, !Z.ltb_ge in *.
      intros [[H0 H] | [Hneg [Hlow H]]].
      * apply lookup_lt_Some in H. lia.
      * lia.
Qed.

Lemma py_index_chars (s : string) (i : Z) :
  py_index (fun n => PyStr.nth_char n s) (String.length s) i
  = py_index (fun n => list_ascii_of_string s !! n) (length (list_ascii_of_string s)) i.
Proof.
  rewrite length_list_ascii. unfold py_index.
  repeat destruct (_ && _); try reflexivity; apply nth_char_lookup.
Qed.

(** [int] on a few segments: spaces around the literal and single
    underscores inside it are accepted; a control character that is not a
    space, a doubled underscore and the empty string are refused. *)
Example int_reads_decimal_literals :
  PyStr.int " 12 " = Some 12
  /\ PyStr.int "-1_0" = Some (-10)
  /\ PyStr.int (String (ascii_of_nat 28) "1") = None
  /\ PyStr.int "1__0" = None
  /\ PyStr.int "" = None.
Proof. repeat split; reflexivity. Qed.

(** A step of the walk succeeds exactly as [child_at] says. *)
Lemma walk_step_Ok (fragment : string) (document : json) (part : string) (child : json) :
  walk_step fragment document part = Ok child <-> child_at document part child.
Proof.
  unfold walk_step.
  destruct document as [| b | n | s | items | members]; cbn [is_Sequence].
  1-3: split; [cbn; discriminate | inversion 1].
  - destruct (PyStr.int (unescape part)) as [i |] eqn:Hint; cbn [getitem].
    + rewrite py_index_chars.
      destruct (py_index _ _ i) as [a |] eqn:Hidx; cbn.
      * pose proof (proj1 (py_index_Some _ _ _) Hidx) as Hat. split.
        -- intros [= <-]. econstructor; eauto.
        -- inversion 1 as [| | s' part' i' a' Hint' Hitem]; subst.
           rewrite Hint in Hint'. injection Hint' as <-.
           apply py_index_Some in Hitem. congruence.
      * split; [discriminate |].
        inversion 1 as [| | s' part' i' a' Hint' Hitem]; subst.
        rewrite Hint in Hint'. injection Hint' as <-.
        apply py_index_Some in Hitem. congruence.
    + split; [discriminate | inversion 1; congruence].
  - destruct (PyStr.int (unescape part)) as [i |] eqn:Hint; cbn [getitem].
    + destruct (py_index _ _ i) as [v |] eqn:Hidx.
      * pose proof (proj1 (py_index_Some _ _ _) Hidx) as Hat. split.
        -- intros [= <-]. econstructor; eauto.
        -- inversion 1 as [| items' part' i' v' Hint' Hitem |]; subst.
           rewrite Hint in Hint'. injection Hint' as <-.
           apply py_index_Some in Hitem. congruence.
      * split; [discriminate |].
        inversion 1 as [| items' part' i' v' Hint' Hitem |]; subst.
        rewrite Hint in Hint'. injection Hint' as <-.
        apply py_index_Some in Hitem. congruence.
    + split; [discriminate | inversion 1; congruence].
  - cbn [getitem].
    destruct (dict_get (unescape part) members) as [v |] eqn:Hget.
    + split; [intros [= <-]; now constructor | inversion 1; congruence].
    + split; [discriminate | inversion 1; congruence].
Qed.

(** The walk succeeds exactly as [walks_to] says. *)
Lemma walk_Ok (fragment : string) (parts : list string) :
  forall document value,
    walk fragment document parts = Ok value <-> walks_to document parts value.
Proof.
  induction parts as [| part rest IH]; intros document value; cbn.
  - split; [intros [= <-]; constructor | inversion 1; reflexivity].
  - destruct (walk_step fragment document part) as [child |] eqn:Hstep; cbn.
    + apply walk_step_Ok in Hstep. rewrite IH. split.
      * intros Hrest. econstructor; eauto.
      * inversion 1 as [| d p r c v Hchild Hrest]; subst.
        apply walk_step_Ok with (fragment := fragment) in Hchild.
        apply walk_step_Ok with (fragment := fragment) in Hstep.
        congruence.
    + split; [discriminate |].
      inversion 1 as [| d p r c v Hchild Hrest]; subst.
      apply walk_step_Ok with (fragment := fragment) in Hchild. congruence.
Qed.

(** ** resolve_fragment *)

Section Fragments.

Variable unquote : string -> string.


End Fragments.


(** ** resolve *)

(** Induction on a document that reaches the values of a dict. *)
Lemma json_members_ind (P : json -> Prop) :
  P JNull -> (forall b, P (JBool b)) -> (forall n, P (JNum n)) ->
  (forall s, P (JStr s)) -> (forall items, P (JArr items)) ->
  (forall members, Forall (fun kv => P kv.2) members -> P (JObj members)) ->
  forall document, P document.
Proof.
  intros f1 f2 f3 f4 f5 f6. fix ind 1.
  intros [| b | n | s | items | members];
    [exact f1 | apply f2 | apply f3 | apply f4 | apply f5 |].
  apply f6. induction members as [| [k v] rest IH]; constructor; [apply ind | exact IH].
Qed.

Lemma _finditem_holds_key (key : string) (document subschema : json) :
  In subschema (_finditem key document) ->
  exists members value, subschema = JObj members /\ dict_get key members = Some value.
Proof.
  revert subschema.
  induction document as [| b | n | s | items | members IH] using json_members_ind;
    intros subschema; cbn [_finditem]; try (intros []).
  intros Hin. apply in_app_or in Hin as [Hin | Hin].
  - unfold dict_has in Hin. destruct (dict_get key members) as [value |] eqn:Hget.
    + destruct Hin as [<- | []]. eauto.
    + destruct Hin.
  - clear -IH Hin. induction IH as [| [k v] rest Hv _ IHrest]; [destruct Hin |].
    apply in_app_or in Hin as [Hin | Hin]; [| now apply IHrest].
    cbn in Hv. destruct v; try destruct Hin. now apply Hv.
Qed.

Section Resolve.

Variable urljoin : json -> json -> result json.
Variable urldefrag : string -> result (string * string).
Variable unquote : string -> string.
Variable uri_normalize : json -> result string.
Variable fetch : string -> result json.

(** The answer of [resolve_local] is local: a dict of the searched list
    that matches [uri], or what the fragment resolves to inside it. *)
Lemma resolve_local_in_Some (r : RefResolver) (uri fragment : string)
    (subschemas : list json) (found : json) :
  Forall (fun s => exists members value,
              s = JObj members /\ dict_get "$id" members = Some value) subschemas ->
  resolve_local_in urljoin unquote r uri fragment subschemas = Ok (Some found) ->
  exists subschema,
    In subschema subschemas
    /\ local_match urljoin r uri subschema
    /\ (if String.eqb fragment "" then found = subschema
        else resolve_fragment unquote subschema fragment = Ok found).
Proof.
  induction 1 as [| s rest (members & value & -> & Hid) _ IH]; cbn; [discriminate |].
  rewrite Hid. cbn.
  destruct (resolution_scope r) as [scope |] eqn:Hscope; cbn; [| discriminate].
  destruct (urljoin scope value) as [target_uri |] eqn:Hjoin; cbn; [| discriminate].
  destruct (rstrip_slash target_uri) as [target |] eqn:Hstrip; cbn; [| discriminate].
  destruct (String.eqb_spec target (PyStr.rstrip "/" uri)) as [Heq | Hne].
  - intros Hfound. exists (JObj members). split; [now left |]. split.
    + exists members, value, scope, target_uri, target. repeat split; assumption.
    + destruct (String.eqb fragment ""); [congruence |].
      destruct (resolve_fragment unquote (JObj members) fragment); cbn in Hfound; congruence.
  - intros Hfound. destruct (IH Hfound) as (subschema & Hin & Hrest).
    exists subschema. split; [now right | exact Hrest].
Qed.

(** When [resolve_local] finds nothing, no dict holding an ["$id"] matches. *)
Lemma resolve_local_in_None (r : RefResolver) (uri fragment : string)
    (subschemas : list json) :
  resolve_local_in urljoin unquote r uri fragment subschemas = Ok None ->
  forall subschema, In subschema subschemas -> ~ local_match urljoin r uri subschema.
Proof.
  induction subschemas as [| s rest IH]; cbn; [intros _ ? [] |].
  intros Hnone subschema Hin (members & id & scope & target_uri & target & Hs & Hid
                              & Hscope & Hjoin & Hstrip & Heq).
  rewrite Hscope in Hnone. cbn in Hnone.
  destruct Hin as [<- | Hin].
  - subst s. rewrite Hid in Hnone. cbn in Hnone. rewrite Hjoin in Hnone. cbn in Hnone.
    rewrite Hstrip in Hnone. cbn in Hnone.
    rewrite Heq, String.eqb_refl in Hnone.
    destruct (String.eqb fragment ""); [discriminate |].
    destruct (resolve_fragment unquote (JObj members) fragment); discriminate.
  - destruct (urljoin scope _) as [t |]; cbn in Hnone; [| discriminate].
    destruct (rstrip_slash t) as [t' |]; cbn in Hnone; [| discriminate].
    destruct (String.eqb t' (PyStr.rstrip "/" uri)).
    + destruct (String.eqb fragment ""); [discriminate |].
      destruct (resolve_fragment unquote s fragment); discriminate.
    + eapply IH; eauto.
      exists members, id, scope, target_uri, target. repeat split; assumption.
Qed.

(** [resolve] answers from [resolve_local] when that answer is truthy, and
    from [resolve_from_url] when [resolve_local] found nothing. *)
Lemma resolve_local_first (ref : json) (r : RefResolver) (url : string) :
  (scope ← resolution_scope r; joined ← urljoin scope ref; rstrip_slash joined) = Ok url ->
  (forall found,
      resolve_local urljoin urldefrag unquote r url (referrer r) = Ok (Some found) ->
      truthy found = true ->
      resolve urljoin urldefrag unquote uri_normalize fetch ref r = (Ok (url, found), r))
  /\ (resolve_local urljoin urldefrag unquote r url (referrer r) = Ok None ->
      resolve urljoin urldefrag unquote uri_normalize fetch ref r
      = match resolve_from_url urldefrag unquote uri_normalize fetch url r with
        | (Ok document, r') => (Ok (url, document), r')
        | (Err x, r') => (Err x, r')
        end)
  /\ (forall x,
      resolve_local urljoin urldefrag unquote r url (referrer r) = Err x ->
      resolve urljoin urldefrag unquote uri_normalize fetch ref r = (Err x, r)).
Proof.
  intros Hurl. unfold resolve. rewrite Hurl. repeat split.
  - intros found -> Htrue. cbn. now rewrite Htrue.
  - intros ->. reflexivity.
  - intros x ->. reflexivity.
Qed.

(** C4, the defect.  When [resolve_local] finds a local match whose
    resolved document is falsy (an empty schema, [False], ...), [resolve]
    tests the document instead of whether something was found, and turns
    to remote resolution although a dict of the referrer matches. *)
Theorem resolve_goes_remote_on_falsy_local_match (ref : json) (r : RefResolver)
    (url : string) (found : json) :
  (scope ← resolution_scope r; joined ← urljoin scope ref; rstrip_slash joined) = Ok url ->
  resolve_local urljoin urldefrag unquote r url (referrer r) = Ok (Some found) ->
  truthy found = false ->
  (exists uri fragment subschema,
      urldefrag url = Ok (uri, fragment)
      /\ In subschema (_finditem "$id" (referrer r))
      /\ local_match urljoin r uri subschema)
  /\ resolve urljoin urldefrag unquote uri_normalize fetch ref r
     = match resolve_from_url urldefrag unquote uri_normalize fetch url r with
       | (Ok document, r') => (Ok (url, document), r')
       | (Err x, r') => (Err x, r')
       end.
Proof.
  intros Hurl Hlocal Hfalsy. split.
  - unfold resolve_local in Hlocal.
    destruct (urldefrag url) as [[uri fragment] |]; cbn in Hlocal; [| discriminate].
    apply resolve_local_in_Some in Hlocal as (subschema & Hin & Hmatch & _).
    + exists uri, fragment, subschema. auto.
    + apply Forall_forall. intros s Hs%list_elem_of_In.
      eapply _finditem_holds_key, Hs.
  - unfold resolve. rewrite Hurl, Hlocal. cbn. now rewrite Hfalsy.
Qed.

End Resolve.

(** C4 at the failing input: the reference
    ["http://e.com/a#/definitions/e"] has a local match in
    [nested_id_document], the empty schema it points to is found by
    [resolve_local], and [resolve] asks for the remote document all the
    same, which fails where nothing can be retrieved. *)
Lemma resolve_goes_remote_example :
  resolve_local urljoin_absolute urldefrag_plain unquote_plain nested_id_resolver
    "http://e.com/a#/definitions/e" nested_id_document = Ok (Some (JObj []))
  /\ local_match urljoin_absolute nested_id_resolver "http://e.com/a" nested_id_subschema
  /\ resolve urljoin_absolute urldefrag_plain unquote_plain normalize_plain fetch_offline
       (JStr "http://e.com/a#/definitions/e") nested_id_resolver
     = (Err (RefResolutionError_from (Other_exception "URLError")), nested_id_resolver).
Proof.
  assert (Hlocal : resolve_local urljoin_absolute urldefrag_plain unquote_plain
            nested_id_resolver "http://e.com/a#/definitions/e"
            (referrer nested_id_resolver) = Ok (Some (JObj []))) by reflexivity.
  split; [exact Hlocal |]. split.
  - eexists _, _, _, _, _. repeat split; reflexivity.
  - refine (eq_trans
      (proj2 (resolve_goes_remote_on_falsy_local_match urljoin_absolute urldefrag_plain
                unquote_plain normalize_plain fetch_offline
                (JStr "http://e.com/a#/definitions/e") nested_id_resolver
                "http://e.com/a#/definitions/e" (JObj []) eq_refl Hlocal eq_refl)) _).
    vm_compute. reflexivity.
Defined.

(** ** The scope stack *)

Lemma removelast_snoc {A : Type} (l : list A) (x : A) : removelast (l ++ [x]) = l.
Proof.
  induction l as [| a l IH]; [reflexivity |].
  cbn. destruct (l ++ [x]) eqn:E; [now destruct l | now rewrite <- IH].
Qed.

Section Scope_stack.

Variable urljoin : json -> json -> result json.
Variable urldefrag : string -> result (string * string).
Variable unquote : string -> string.
Variable uri_normalize : json -> result string.
Variable fetch : string -> result json.

(** A pop undoes the push before it, whatever else happened to the
    resolver in between, as long as the stack is as the push left it. *)
Lemma pop_after_push (scope : json) (r r1 r2 : RefResolver) :
  push_scope urljoin scope r = Ok r1 ->
  _scopes_stack r2 = _scopes_stack r1 ->
  exists r3, pop_scope r2 = Ok r3 /\ _scopes_stack r3 = _scopes_stack r.
Proof.
  unfold push_scope, pop_scope. intros Hpush Hsame.
  destruct (resolution_scope r) as [top |]; cbn in Hpush; [| discriminate].
  destruct (urljoin top scope) as [joined |]; cbn in Hpush; [| discriminate].
  injection Hpush as <-. cbn in Hsame. rewrite Hsame.
  destruct (_scopes_stack r ++ [joined]) eqn:E; [now destruct (_scopes_stack r) |].
  rewrite <- E. eexists. split; [reflexivity |]. cbn. apply removelast_snoc.
Qed.

Lemma finally_pop_after_push (scope : json) (r r1 : RefResolver) (o : outcome) :
  push_scope urljoin scope r = Ok r1 ->
  _scopes_stack (resolver_after o) = _scopes_stack r1 ->
  _scopes_stack (resolver_after (finally_pop o)) = _scopes_stack r
  /\ yielded (finally_pop o) = yielded o
  /\ how (finally_pop o) = how o.
Proof.
  intros Hpush Hsame. unfold finally_pop.
  destruct (pop_after_push _ _ _ _ Hpush Hsame) as (r3 & -> & Hstack). auto.
Qed.

Lemma and_then_keeps_stack (o : outcome) (rest : RefResolver -> outcome) (stack : list json) :
  _scopes_stack (resolver_after o) = stack ->
  (forall r, _scopes_stack (resolver_after (rest r)) = _scopes_stack r) ->
  _scopes_stack (resolver_after (and_then o rest)) = stack.
Proof.
  intros Ho Hrest. unfold and_then. destruct (how o); cbn; [| assumption ..].
  now rewrite Hrest.
Qed.

Lemma yield_keeps_stack (d : demand) (e : ValidationError) (r : RefResolver)
    (rest : RefResolver -> outcome) :
  (forall r, _scopes_stack (resolver_after (rest r)) = _scopes_stack r) ->
  _scopes_stack (resolver_after (yield d e r rest)) = _scopes_stack r.
Proof. intros Hrest. destruct d; cbn; [apply Hrest | reflexivity]. Qed.

Lemma resolve_from_url_keeps_stack (url : string) (r : RefResolver) :
  _scopes_stack (resolve_from_url urldefrag unquote uri_normalize fetch url r).2
  = _scopes_stack r.
Proof.
  unfold resolve_from_url, resolve_remote, store_set.
  destruct (urldefrag url) as [[u f] |]; [| reflexivity].
  destruct (uri_normalize (JStr u)) as [key |]; [| reflexivity].
  destruct (store r !! key); [reflexivity |].
  destruct (fetch u); [| reflexivity].
  destruct (cache_remote r); reflexivity.
Qed.

Lemma resolve_keeps_stack (ref : json) (r : RefResolver) :
  _scopes_stack (resolve urljoin urldefrag unquote uri_normalize fetch ref r).2
  = _scopes_stack r.
Proof.
  unfold resolve.
  destruct (_ ≫= _) as [url |]; [| reflexivity].
  destruct (resolve_local _ _ _ _ _ _) as [found |]; [| reflexivity].
  destruct (truthy _); [reflexivity |].
  pose proof (resolve_from_url_keeps_stack url r) as H.
  destruct (resolve_from_url _ _ _ _ _ _) as [[document | x] r']; exact H.
Qed.

Section Run.

Variable self_iter_errors : demand -> json -> json -> RefResolver -> outcome.

Hypothesis self_iter_errors_keeps_stack :
  forall d i s r, _scopes_stack (resolver_after (self_iter_errors d i s r)) = _scopes_stack r.

Local Abbreviation run := (run urljoin urldefrag unquote uri_normalize fetch self_iter_errors).

Lemma run_keeps_stack (p : prog) :
  forall d r, _scopes_stack (resolver_after (run d p r)) = _scopes_stack r.
Proof.
  induction p as [| e next IH | x | i s pa sp next IH | i s pa sp next IH
                  | i s next IH | scope body IHbody next IH | ref body IHbody next IH
                  | next IH]; intros d r; cbn.
  - reflexivity.
  - apply yield_keeps_stack. intros r'. apply IH.
  - reflexivity.
  - apply and_then_keeps_stack; [apply self_iter_errors_keeps_stack | intros r'; apply IH].
  - pose proof (self_iter_errors_keeps_stack All i s r) as Hrec.
    destruct (how (self_iter_errors All i s r)); cbn; [| exact Hrec ..].
    rewrite IH. exact Hrec.
  - pose proof (self_iter_errors_keeps_stack First i s r) as Hrec.
    destruct (next_or_None (self_iter_errors First i s r)); cbn; [| exact Hrec].
    rewrite IH. exact Hrec.
  - destruct (push_scope urljoin scope r) as [r1 |] eqn:Hpush; [| reflexivity].
    apply and_then_keeps_stack; [| intros r'; apply IH].
    eapply finally_pop_after_push; [exact Hpush | apply IHbody].
  - pose proof (resolve_keeps_stack ref r) as Hresolve.
    destruct (resolve _ _ _ _ _ _ _) as [[[url resolved] | x] r0]; cbn in Hresolve;
      [| exact Hresolve].
    destruct (push_scope urljoin (JStr url) r0) as [r1 |] eqn:Hpush; [| exact Hresolve].
    rewrite <- Hresolve.
    apply and_then_keeps_stack; [| intros r'; apply IH].
    eapply finally_pop_after_push; [exact Hpush | apply IHbody].
  - apply IH.
Qed.

Lemma each_keyword_keeps_stack (table : gmap string callable) (d : demand)
    (instance_ _schema : json) (pairs : list (string * json)) :
  forall r,
    _scopes_stack
      (resolver_after
         (each_keyword urljoin urldefrag unquote uri_normalize fetch self_iter_errors
            table d instance_ _schema pairs r))
    = _scopes_stack r.
Proof.
  induction pairs as [| [k v] rest IH]; intros r; cbn; [reflexivity |].
  destruct (table !! k) as [validator_ |]; [| apply IH].
  apply and_then_keeps_stack; [apply run_keeps_stack | exact IH].
Qed.

Lemma iter_errors_body_keeps_stack (self : Validator) (d : demand)
    (instance_ _schema : json) (r : RefResolver) :
  _scopes_stack
    (resolver_after
       (iter_errors_body urljoin urldefrag unquote uri_normalize fetch self_iter_errors
          self d instance_ _schema r))
  = _scopes_stack r.
Proof.
  assert (Htry : forall s r',
             _scopes_stack
               (resolver_after
                  (try_block urljoin urldefrag unquote uri_normalize fetch
                     self_iter_errors (class_of self) d instance_ s r'))
             = _scopes_stack r').
  { intros s r'. unfold try_block.
    destruct (applicable_validators _ _); [apply each_keyword_keeps_stack | reflexivity]. }
  unfold iter_errors_body.
  set (effective := match _schema with JNull => self_schema self | _ => _schema end).
  assert (Hgeneral :
    _scopes_stack
      (resolver_after
         match ID_OF (class_of self) effective with
         | Ok scope =>
             if truthy scope
             then match push_scope urljoin scope r with
                  | Ok r1 =>
                      finally_pop
                        (try_block urljoin urldefrag unquote uri_normalize fetch
                           self_iter_errors (class_of self) d instance_ effective r1)
                  | Err x => raised x r
                  end
             else try_block urljoin urldefrag unquote uri_normalize fetch
                    self_iter_errors (class_of self) d instance_ effective r
         | Err x => raised x r
         end) = _scopes_stack r).
  { destruct (ID_OF _ _) as [scope |]; [| reflexivity].
    destruct (truthy scope); [| apply Htry].
    destruct (push_scope urljoin scope r) as [r1 |] eqn:Hpush; [| reflexivity].
    eapply finally_pop_after_push; [exact Hpush | apply Htry]. }
  destruct effective as [| [|] | | | |]; try exact Hgeneral.
  - reflexivity.
  - apply yield_keeps_stack. reflexivity.
Qed.

End Run.

(** C2.  Whatever the schema, the instance, the keyword callables and the
    way the generator stops (exhausted, closed after its first
    diagnostic, [RecursionError] or any other exception), [iter_errors]
    leaves the scope stack as it found it, and so does a [with
    resolver.resolving(ref)] block around any body; in particular the
    depth is the same. *)
Theorem scope_stack_restored (depth : nat) (self : Validator) (d : demand)
    (instance_ _schema : json) (r : RefResolver) :
  let engine := iter_errors urljoin urldefrag unquote uri_normalize fetch in
  _scopes_stack (resolver_after (engine depth self d instance_ _schema r)) = _scopes_stack r
  /\ length (_scopes_stack (resolver_after (engine depth self d instance_ _schema r)))
     = length (_scopes_stack r)
  /\ forall (ref : json) (body : json -> prog),
      let o := run urljoin urldefrag unquote uri_normalize fetch (engine depth self)
                 d (Resolving ref body Return) r in
      _scopes_stack (resolver_after o) = _scopes_stack r
      /\ length (_scopes_stack (resolver_after o)) = length (_scopes_stack r).
Proof.
  assert (Hengine : forall depth d i s r,
             _scopes_stack
               (resolver_after
                  (iter_errors urljoin urldefrag unquote uri_normalize fetch depth self d i s r))
             = _scopes_stack r).
  { clear. intros depth. induction depth as [| depth IH]; intros d i s r; cbn.
    - reflexivity.
    - now apply iter_errors_body_keeps_stack. }
  cbv zeta. split; [apply Hengine |]. split; [now rewrite Hengine |].
  intros ref body.
  assert (Hrun := run_keeps_stack _ (Hengine depth) (Resolving ref body Return) d r).
  split; [exact Hrun | now rewrite Hrun].
Qed.

End Scope_stack.

(** ** Stopping at the first diagnostic *)

Lemma cut_and_then (oA oF : outcome) (restA restF : RefResolver -> outcome) :
  cut_at_first oA oF ->
  (forall r, cut_at_first (restA r) (restF r)) ->
  cut_at_first (and_then oA restA) (and_then oF restF).
Proof.
  unfold cut_at_first, and_then. intros Ho Hrest.
  destruct (yielded oA) as [| e es] eqn:HA.
  - subst oF. destruct (how oA); cbn; rewrite ?HA; [| reflexivity ..].
    cbn. specialize (Hrest (resolver_after oA)).
    destruct (yielded (restA (resolver_after oA))) eqn:HR; [| exact Hrest].
    rewrite Hrest, HR. reflexivity.
  - destruct Ho as [HF Hstop].
    destruct (how oF) eqn:HhF; [done | ..];
      (destruct (how oA); cbn; rewrite ?HA; cbn;
       (split; [exact HF | rewrite HhF; discriminate])).
Qed.

Lemma cut_map_yielded (f : ValidationError -> ValidationError) (oA oF : outcome) :
  cut_at_first oA oF -> cut_at_first (map_yielded f oA) (map_yielded f oF).
Proof.
  unfold cut_at_first, map_yielded. cbn.
  destruct (yielded oA) as [| e es] eqn:HA; cbn.
  - intros ->. now rewrite HA.
  - intros [-> Hstop]. auto.
Qed.

Lemma cut_finally_pop (oA oF : outcome) :
  cut_at_first oA oF -> cut_at_first (finally_pop oA) (finally_pop oF).
Proof.
  unfold cut_at_first.
  replace (yielded (finally_pop oA)) with (yielded oA)
    by (unfold finally_pop; now destruct (pop_scope _)).
  destruct (yielded oA) as [| e es] eqn:HA.
  - now intros ->.
  - intros [HF Hstop]. unfold finally_pop.
    destruct (pop_scope (resolver_after oF)); cbn; auto.
Qed.

Lemma cut_yield (e : ValidationError) (r : RefResolver) (restA restF : RefResolver -> outcome) :
  cut_at_first (yield All e r restA) (yield First e r restF).
Proof. unfold cut_at_first. cbn. auto. Qed.

Lemma cut_refl (o : outcome) : yielded o = [] -> cut_at_first o o.
Proof. unfold cut_at_first. now intros ->. Qed.

(** Closes a goal where both consumers see the same run without a
    diagnostic. *)
Ltac same_run := first [reflexivity | now apply cut_refl].

#[local] Arguments yield : simpl never.
#[local] Arguments and_then : simpl never.
#[local] Arguments finally_pop : simpl never.
#[local] Arguments map_yielded : simpl never.
#[local] Arguments cut_at_first : simpl never.

Section First_diagnostic.

Variable urljoin : json -> json -> result json.
Variable urldefrag : string -> result (string * string).
Variable unquote : string -> string.
Variable uri_normalize : json -> result string.
Variable fetch : string -> result json.

Section Run.

Variable self_iter_errors : demand -> json -> json -> RefResolver -> outcome.

Hypothesis self_iter_errors_cut :
  forall i s r, cut_at_first (self_iter_errors All i s r) (self_iter_errors First i s r).

Hypothesis self_iter_errors_not_closed :
  forall i s r, how (self_iter_errors All i s r) <> Closed.

Local Abbreviation run := (run urljoin urldefrag unquote uri_normalize fetch self_iter_errors).

Lemma run_cut (p : prog) : forall r, cut_at_first (run All p r) (run First p r).
Proof.
  induction p as [| e next IH | x | i s pa sp next IH | i s pa sp next IH
                  | i s next IH | scope body IHbody next IH | ref body IHbody next IH
                  | next IH]; intros r; cbn.
  - same_run.
  - apply cut_yield.
  - same_run.
  - apply cut_and_then; [apply cut_map_yielded, self_iter_errors_cut | exact IH].
  - destruct (how (self_iter_errors All i s r)); [apply IH | same_run ..].
  - destruct (next_or_None (self_iter_errors First i s r)); [apply IH | same_run].
  - destruct (push_scope urljoin scope r) as [r1 |]; [| same_run].
    apply cut_and_then; [apply cut_finally_pop, IHbody | exact IH].
  - destruct (resolve _ _ _ _ _ _ _) as [[[url resolved] | x] r0]; [| same_run].
    destruct (push_scope urljoin (JStr url) r0) as [r1 |]; [| same_run].
    apply cut_and_then; [apply cut_finally_pop, IHbody | exact IH].
  - apply IH.
Qed.

Lemma and_then_not_closed (o : outcome) (rest : RefResolver -> outcome) :
  how o <> Closed -> (forall r, how (rest r) <> Closed) -> how (and_then o rest) <> Closed.
Proof.
  unfold and_then. intros Ho Hrest.
  destruct (how o) eqn:E; cbn; [apply Hrest | congruence ..].
Qed.

Lemma finally_pop_not_closed (o : outcome) :
  how o <> Closed -> how (finally_pop o) <> Closed.
Proof.
  unfold finally_pop. intros Ho. destruct (pop_scope _); cbn; [exact Ho | discriminate].
Qed.

Lemma run_not_closed (p : prog) : forall r, how (run All p r) <> Closed.
Proof.
  induction p as [| e next IH | x | i s pa sp next IH | i s pa sp next IH
                  | i s next IH | scope body IHbody next IH | ref body IHbody next IH
                  | next IH]; intros r; cbn; try discriminate.
  - apply IH.
  - apply and_then_not_closed; [apply self_iter_errors_not_closed | exact IH].
  - pose proof (self_iter_errors_not_closed i s r) as Hrec.
    destruct (how (self_iter_errors All i s r)); cbn; [apply IH | done | discriminate].
  - destruct (next_or_None (self_iter_errors First i s r)); [apply IH | discriminate].
  - destruct (push_scope urljoin scope r) as [r1 |]; [| discriminate].
    apply and_then_not_closed; [apply finally_pop_not_closed, IHbody | exact IH].
  - destruct (resolve _ _ _ _ _ _ _) as [[[url resolved] | x] r0]; [| discriminate].
    destruct (push_scope urljoin (JStr url) r0) as [r1 |]; [| discriminate].
    apply and_then_not_closed; [apply finally_pop_not_closed, IHbody | exact IH].
  - apply IH.
Qed.

Lemma each_keyword_cut (table : gmap string callable) (instance_ _schema : json)
    (pairs : list (string * json)) :
  forall r,
    cut_at_first
      (each_keyword urljoin urldefrag unquote uri_normalize fetch self_iter_errors
         table All instance_ _schema pairs r)
      (each_keyword urljoin urldefrag unquote uri_normalize fetch self_iter_errors
         table First instance_ _schema pairs r).
Proof.
  induction pairs as [| [k v] rest IH]; intros r; cbn; [same_run |].
  destruct (table !! k) as [validator_ |]; [| apply IH].
  apply cut_and_then; [apply cut_map_yielded, run_cut | exact IH].
Qed.

Lemma each_keyword_not_closed (table : gmap string callable) (instance_ _schema : json)
    (pairs : list (string * json)) :
  forall r,
    how (each_keyword urljoin urldefrag unquote uri_normalize fetch self_iter_errors
           table All instance_ _schema pairs r) <> Closed.
Proof.
  induction pairs as [| [k v] rest IH]; intros r; cbn; [discriminate |].
  destruct (table !! k) as [validator_ |]; [| apply IH].
  apply and_then_not_closed; [apply run_not_closed | exact IH].
Qed.

Lemma iter_errors_body_cut (self : Validator) (instance_ _schema : json) (r : RefResolver) :
  cut_at_first
    (iter_errors_body urljoin urldefrag unquote uri_normalize fetch self_iter_errors
       self All instance_ _schema r)
    (iter_errors_body urljoin urldefrag unquote uri_normalize fetch self_iter_errors
       self First instance_ _schema r)
  /\ how (iter_errors_body urljoin urldefrag unquote uri_normalize fetch self_iter_errors
            self All instance_ _schema r) <> Closed.
Proof.
  assert (Htry : forall s r',
    cut_at_first
      (try_block urljoin urldefrag unquote uri_normalize fetch self_iter_errors
         (class_of self) All instance_ s r')
      (try_block urljoin urldefrag unquote uri_normalize fetch self_iter_errors
         (class_of self) First instance_ s r')
    /\ how (try_block urljoin urldefrag unquote uri_normalize fetch self_iter_errors
              (class_of self) All instance_ s r') <> Closed).
  { intros s r'. unfold try_block. destruct (applicable_validators _ _).
    - split; [apply each_keyword_cut | apply each_keyword_not_closed].
    - split; [same_run | discriminate]. }
  unfold iter_errors_body.
  set (effective := match _schema with JNull => self_schema self | _ => _schema end).
  destruct effective as [| [|] | n | s | items | members];
    try (destruct (ID_OF _ _) as [scope |]; [| split; [same_run | discriminate]];
         destruct (truthy scope); [| apply Htry];
         destruct (push_scope urljoin scope r) as [r1 |];
           [| split; [same_run | discriminate]];
         split; [apply cut_finally_pop, Htry | apply finally_pop_not_closed, Htry]).
  - split; [same_run | discriminate].
  - split; [apply cut_yield | discriminate].
Qed.

End Run.

Lemma iter_errors_cut (depth : nat) (self : Validator) :
  forall instance_ _schema r,
    cut_at_first
      (iter_errors urljoin urldefrag unquote uri_normalize fetch depth self All
         instance_ _schema r)
      (iter_errors urljoin urldefrag unquote uri_normalize fetch depth self First
         instance_ _schema r)
    /\ how (iter_errors urljoin urldefrag unquote uri_normalize fetch depth self All
              instance_ _schema r) <> Closed.
Proof.
  induction depth as [| depth IH]; intros instance_ _schema r; cbn.
  - split; [same_run | discriminate].
  - apply iter_errors_body_cut; intros; apply IH.
Qed.

(** What [next(self.iter_errors(...), None)] is, from the exhausted run. *)
Lemma next_or_None_first (depth : nat) (self : Validator)
    (instance_ _schema : json) (r : RefResolver) :
  let produced := iter_errors urljoin urldefrag unquote uri_normalize fetch depth self All
                    instance_ _schema r in
  next_or_None
    (iter_errors urljoin urldefrag unquote uri_normalize fetch depth self First
       instance_ _schema r)
  = match yielded produced with
    | e :: _ => Ok (Some e)
    | [] => match how produced with Raised x => Err x | _ => Ok None end
    end.
Proof.
  cbv zeta. destruct (iter_errors_cut depth self instance_ _schema r) as [Hcut _].
  unfold cut_at_first in Hcut. unfold next_or_None at 1.
  destruct (yielded (iter_errors _ _ _ _ _ depth self All _ _ r)) as [| e es] eqn:HA.
  - now rewrite Hcut, HA.
  - destruct Hcut as [-> _]. reflexivity.
Qed.

(** C1.  [is_valid] returns [True] exactly when [iter_errors], driven to
    exhaustion, ends normally without a diagnostic; it returns [False]
    exactly when [iter_errors] produces a diagnostic; and it raises
    exactly when [iter_errors] raises before any diagnostic (the
    interpreter's [RecursionError] included). *)
Theorem is_valid_iff_no_diagnostics (depth : nat) (self : Validator)
    (instance_ _schema : json) (r : RefResolver) :
  let produced := iter_errors urljoin urldefrag unquote uri_normalize fetch depth self All
                    instance_ _schema r in
  let answer := (is_valid urljoin urldefrag unquote uri_normalize fetch depth self
                   instance_ _schema r).1 in
  (answer = Ok true <-> yielded produced = [] /\ how produced = Finished)
  /\ (answer = Ok false <-> yielded produced <> [])
  /\ (forall x, answer = Err x <-> yielded produced = [] /\ how produced = Raised x).
Proof.
  cbv zeta. unfold is_valid. cbn [fst].
  rewrite next_or_None_first.
  destruct (iter_errors_cut depth self instance_ _schema r) as [_ Hopen].
  destruct (yielded (iter_errors _ _ _ _ _ depth self All _ _ r)) as [| e es].
  - destruct (how (iter_errors _ _ _ _ _ depth self All _ _ r)) as [| | y]; [| done |].
    + split; [| split]; [done | split; [discriminate | done] |].
      intros x. split; [discriminate | intros [_ [=]]].
    + split; [| split].
      * split; [discriminate | intros [_ [=]]].
      * split; [discriminate | done].
      * intros x. split; [intros [= ->]; done | intros [_ [= ->]]; done].
  - split; [| split].
    + split; [discriminate | intros [[=] _]].
    + split; [discriminate | done].
    + intros x. split; [discriminate | intros [[=] _]].
Qed.

(** The method [validate] raises the first diagnostic and returns [None]
    when there is none. *)
Lemma Validator_validate_first (depth : nat) (self : Validator)
    (instance_ _schema : json) (r : RefResolver) :
  let produced := iter_errors urljoin urldefrag unquote uri_normalize fetch depth self All
                    instance_ _schema r in
  (Validator_validate urljoin urldefrag unquote uri_normalize fetch depth self
     instance_ _schema r).1
  = match yielded produced with
    | e :: _ => Err (Raised_ValidationError e)
    | [] => match how produced with Raised x => Err x | _ => Ok tt end
    end.
Proof.
  cbv zeta. unfold Validator_validate. cbn [fst]. rewrite next_or_None_first.
  destruct (yielded _); [| reflexivity]. now destruct (how _).
Qed.

End First_diagnostic.

(** ** Diagnostics of the engine *)

Lemma stamp_schema_path (k : string) (v instance_ schema_ : json) (e : ValidationError) :
  ((k = "if" \/ k = "$ref") -> schema_path (stamp k v instance_ schema_ e) = schema_path e)
  /\ (k <> "if" -> k <> "$ref" ->
      schema_path (stamp k v instance_ schema_ e) = Key k :: schema_path e).
Proof.
  unfold stamp, decorates_path. split.
  - intros [-> | ->]; reflexivity.
  - intros Hif Href.
    destruct (String.eqb_spec k "if"); [done |].
    destruct (String.eqb_spec k "$ref"); [done |]. reflexivity.
Qed.

Lemma yielded_and_then (o : outcome) (rest : RefResolver -> outcome) (e : ValidationError) :
  In e (yielded (and_then o rest)) ->
  In e (yielded o) \/ exists r, In e (yielded (rest r)).
Proof.
  unfold and_then. destruct (how o); cbn; [| auto ..].
  intros [H | H]%in_app_or; eauto.
Qed.

Lemma yielded_finally_pop (o : outcome) : yielded (finally_pop o) = yielded o.
Proof. unfold finally_pop. now destruct (pop_scope _). Qed.

Section Diagnostics.

Variable urljoin : json -> json -> result json.
Variable urldefrag : string -> result (string * string).
Variable unquote : string -> string.
Variable uri_normalize : json -> result string.
Variable fetch : string -> result json.

Local Abbreviation engine := (iter_errors urljoin urldefrag unquote uri_normalize fetch).

(** C6.  Against the schema [True] the engine produces nothing, and
    against [False] exactly one diagnostic, whose message is that the
    false schema does not allow the instance; the same holds when the
    boolean is the schema the engine was built with. *)
Theorem boolean_schemas (depth : nat) (self : Validator) (cls : Class)
    (instance_ : json) (r : RefResolver) :
  engine (S depth) self All instance_ (JBool true) r = mkOutcome [] Finished r
  /\ engine (S depth) self All instance_ (JBool false) r
     = mkOutcome [false_schema_error instance_] Finished r
  /\ engine (S depth) (mkValidator cls (JBool true)) All instance_ JNull r
     = mkOutcome [] Finished r
  /\ engine (S depth) (mkValidator cls (JBool false)) All instance_ JNull r
     = mkOutcome [false_schema_error instance_] Finished r
  /\ message (false_schema_error instance_) = False_schema_does_not_allow instance_.
Proof. repeat split. Qed.

Lemma yielded_each_keyword (rec : demand -> json -> json -> RefResolver -> outcome)
    (table : gmap string callable) (d : demand) (instance_ _schema : json)
    (pairs : list (string * json)) (e' : ValidationError) :
  forall r,
    In e' (yielded (each_keyword urljoin urldefrag unquote uri_normalize fetch rec
                      table d instance_ _schema pairs r)) ->
    exists k v validator_ e r0,
      In (k, v) pairs
      /\ table !! k = Some validator_
      /\ In e (yielded (run urljoin urldefrag unquote uri_normalize fetch rec d
                          (validator_ v instance_ _schema) r0))
      /\ e' = stamp k v instance_ _schema e.
Proof.
  induction pairs as [| [k v] rest IH]; intros r; cbn; [intros [] |].
  destruct (table !! k) as [validator_ |] eqn:Hk.
  - intros [Hhere | [r' Hrest]]%yielded_and_then.
    + unfold map_yielded in Hhere. cbn in Hhere.
      apply in_map_iff in Hhere as (e & <- & He).
      exists k, v, validator_, e, r. split; [now left |]. auto.
    + destruct (IH _ Hrest) as (k0 & v0 & c0 & e & r0 & Hin & Hrestk).
      exists k0, v0, c0, e, r0. split; [now right | exact Hrestk].
  - intros Hrest. destruct (IH _ Hrest) as (k0 & v0 & c0 & e & r0 & Hin & Hrestk).
    exists k0, v0, c0, e, r0. split; [now right | exact Hrestk].
Qed.

(** C8.  A diagnostic that [iter_errors] yields for a schema that is a
    mapping comes from the callable of an applicable keyword [k], stamped
    by the loop: [k] is put in front of the schema path the callable left,
    unless [k] is ["if"] or ["$ref"], for which the path is left as it
    is. *)
Theorem keyword_prepended_to_schema_path (depth : nat) (self : Validator) (d : demand)
    (instance_ _schema : json) (r : RefResolver) (e' : ValidationError) :
  let effective := match _schema with JNull => self_schema self | _ => _schema end in
  (forall b, effective <> JBool b) ->
  In e' (yielded (engine (S depth) self d instance_ _schema r)) ->
  exists pairs k v validator_ e r0,
    applicable_validators (class_of self) effective = Ok pairs
    /\ In (k, v) pairs
    /\ VALIDATORS (class_of self) !! k = Some validator_
    /\ In e (yielded (run urljoin urldefrag unquote uri_normalize fetch
                        (engine depth self) d (validator_ v instance_ effective) r0))
    /\ e' = stamp k v instance_ effective e
    /\ ((k = "if" \/ k = "$ref") -> schema_path e' = schema_path e)
    /\ (k <> "if" -> k <> "$ref" -> schema_path e' = Key k :: schema_path e).
Proof.
  intros effective Hmapping. cbn [iter_errors]. unfold iter_errors_body. fold effective.
  assert (Htry : forall r1,
    In e' (yielded (try_block urljoin urldefrag unquote uri_normalize fetch
                      (engine depth self) (class_of self) d instance_ effective r1)) ->
    exists pairs k v validator_ e r0,
      applicable_validators (class_of self) effective = Ok pairs
      /\ In (k, v) pairs
      /\ VALIDATORS (class_of self) !! k = Some validator_
      /\ In e (yielded (run urljoin urldefrag unquote uri_normalize fetch
                          (engine depth self) d (validator_ v instance_ effective) r0))
      /\ e' = stamp k v instance_ effective e
      /\ ((k = "if" \/ k = "$ref") -> schema_path e' = schema_path e)
      /\ (k <> "if" -> k <> "$ref" -> schema_path e' = Key k :: schema_path e)).
  { intros r1. unfold try_block.
    destruct (applicable_validators (class_of self) effective) as [pairs |]; [| intros []].
    intros (k & v & c & e & r0 & Hin & Hk & He & ->)%yielded_each_keyword.
    exists pairs, k, v, c, e, r0. repeat split; auto; apply stamp_schema_path. }
  assert (Hgeneral :
    In e' (yielded
             match ID_OF (class_of self) effective with
             | Ok scope =>
                 if truthy scope
                 then match push_scope urljoin scope r with
                      | Ok r1 =>
                          finally_pop
                            (try_block urljoin urldefrag unquote uri_normalize fetch
                               (engine depth self) (class_of self) d instance_ effective r1)
                      | Err x => raised x r
                      end
                 else try_block urljoin urldefrag unquote uri_normalize fetch
                        (engine depth self) (class_of self) d instance_ effective r
             | Err x => raised x r
             end) ->
    exists pairs k v validator_ e r0,
      applicable_validators (class_of self) effective = Ok pairs
      /\ In (k, v) pairs
      /\ VALIDATORS (class_of self) !! k = Some validator_
      /\ In e (yielded (run urljoin urldefrag unquote uri_normalize fetch
                          (engine depth self) d (validator_ v instance_ effective) r0))
      /\ e' = stamp k v instance_ effective e
      /\ ((k = "if" \/ k = "$ref") -> schema_path e' = schema_path e)
      /\ (k <> "if" -> k <> "$ref" -> schema_path e' = Key k :: schema_path e)).
  { destruct (ID_OF _ _) as [scope |]; [| intros []].
    destruct (truthy scope); [| apply Htry].
    destruct (push_scope urljoin scope r) as [r1 |]; [| intros []].
    rewrite yielded_finally_pop. apply Htry. }
  destruct effective as [| b | | | |]; try exact Hgeneral.
  now destruct (Hmapping b).
Qed.

End Diagnostics.

(** ** The strict entry points *)

Section Strict.

Variable urljoin : json -> json -> result json.
Variable urldefrag : string -> result (string * string).
Variable unquote : string -> string.
Variable uri_normalize : json -> result string.
Variable fetch : string -> result json.
Variable _LATEST_VERSION : Class.
Variable best_match : list ValidationError -> option ValidationError.

Local Abbreviation engine := (iter_errors urljoin urldefrag unquote uri_normalize fetch).
Local Abbreviation validate_method :=
  (Validator_validate urljoin urldefrag unquote uri_normalize fetch).
Local Abbreviation validate_function :=
  (validate urljoin urldefrag unquote uri_normalize fetch _LATEST_VERSION best_match).
Local Abbreviation check :=
  (check_schema urljoin urldefrag unquote uri_normalize fetch).

Lemma check_schema_first (depth : nat) (reg : Registry) (cls : Class) (schema_ : json)
    (meta_validator : Validator) (meta_resolver : RefResolver) :
  Validator_init uri_normalize reg cls (JObj (META_SCHEMA cls)) None
  = Ok (meta_validator, meta_resolver) ->
  check depth reg cls schema_
  = match yielded (engine depth meta_validator All schema_ JNull meta_resolver) with
    | e :: _ => Err (SchemaError e)
    | [] =>
        match how (engine depth meta_validator All schema_ JNull meta_resolver) with
        | Raised x => Err x
        | _ => Ok tt
        end
    end.
Proof.
  intros Hinit. unfold check_schema. rewrite Hinit. cbn.
  rewrite next_or_None_first.
  destruct (yielded _); [| reflexivity]. now destruct (how _).
Qed.

(** C3, as amended.  The method [validate] raises the first diagnostic of
    [iter_errors] and does nothing when there is none.  The module-level
    [validate] (with the class it is given, or the one [validator_for]
    selects from ["$schema"]) first checks the schema against the
    meta-schema of the class and raises a [SchemaError] made of the first
    diagnostic of that check; when the check passes, it exhausts
    [iter_errors], raises the diagnostic that [best_match] selects among
    all of them, and does nothing when [best_match] selects none. *)
Theorem strict_entry_points (depth : nat) (self : Validator) (instance_ _schema : json)
    (r : RefResolver) (reg : Registry) (cls : Class) (schema_ : json)
    (resolver : option RefResolver) :
  let produced := engine depth self All instance_ _schema r in
  ((forall e es, yielded produced = e :: es ->
      (validate_method depth self instance_ _schema r).1 = Err (Raised_ValidationError e))
   /\ (yielded produced = [] -> how produced = Finished ->
       (validate_method depth self instance_ _schema r).1 = Ok tt))
  /\ (forall meta_validator meta_resolver e es,
       Validator_init uri_normalize reg cls (JObj (META_SCHEMA cls)) None
       = Ok (meta_validator, meta_resolver) ->
       yielded (engine depth meta_validator All schema_ JNull meta_resolver) = e :: es ->
       (validate_function depth reg instance_ schema_ (Some cls) resolver).1
       = Err (SchemaError e))
  /\ (forall validator_ r',
       check depth reg cls schema_ = Ok tt ->
       Validator_init uri_normalize reg cls schema_ resolver = Ok (validator_, r') ->
       let all := engine depth validator_ All instance_ JNull r' in
       (validate_function depth reg instance_ schema_ (Some cls) resolver).1
       = match how all with
         | Raised x => Err x
         | _ =>
             match best_match (yielded all) with
             | Some e => Err (Raised_ValidationError e)
             | None => Ok tt
             end
         end)
  /\ (forall selected warnings,
       validator_for uri_normalize _LATEST_VERSION reg schema_ None
       = (Ok selected, warnings) ->
       validate_function depth reg instance_ schema_ None resolver
       = ((validate_function depth reg instance_ schema_ (Some selected) resolver).1,
          warnings)).
Proof.
  cbv zeta. split; [split | split; [| split]].
  - intros e es He. now rewrite Validator_validate_first, He.
  - intros He Hhow. now rewrite Validator_validate_first, He, Hhow.
  - intros mv mr e es Hinit He. unfold validate.
    cbn -[check_schema iter_errors Validator_init].
    now rewrite (check_schema_first _ _ _ _ _ _ Hinit), He.
  - intros validator_ r' Hcheck Hinit. unfold validate.
    cbn -[check_schema iter_errors Validator_init].
    rewrite Hcheck. cbn -[iter_errors Validator_init]. rewrite Hinit. reflexivity.
  - intros selected warnings Hsel. unfold validate. now rewrite Hsel.
Qed.

End Strict.

(** C3, counterexample.  The instance [{"name": 1}] satisfies the schema
    [{"required": ["name"]}]: [iter_errors] produces nothing.  The schema
    has no ["title"], which the meta-schema of [TitledValidator] requires,
    and the module-level [validate] raises a [SchemaError], whatever
    [best_match] is. *)
Lemma validate_raises_without_diagnostics :
  let schema_ := JObj [("required", JArr [JStr "name"])] in
  let instance_ := JObj [("name", JNum 1)] in
  iter_errors urljoin_absolute urldefrag_plain unquote_plain normalize_plain fetch_offline
    10 (mkValidator TitledValidator schema_) All instance_ JNull (plain_resolver schema_)
  = mkOutcome [] Finished (plain_resolver schema_)
  /\ Validator_init normalize_plain empty_registry TitledValidator schema_ None
     = Ok (mkValidator TitledValidator schema_, plain_resolver schema_)
  /\ (forall best_match,
        (validate urljoin_absolute urldefrag_plain unquote_plain normalize_plain
           fetch_offline TitledValidator best_match 10 empty_registry
           instance_ schema_ (Some TitledValidator) None).1
        = Err (SchemaError
                 (stamp "required" (JArr [JStr "title"]) schema_ (JObj titled_meta_schema)
                    (error_ "title is a required property")))).
Proof.
  cbv zeta. split; [vm_compute; reflexivity |]. split; [vm_compute; reflexivity |].
  intros best_match. vm_compute. reflexivity.
Qed.

(** ** Selecting and deriving variants *)

Section Selection.

Variable urljoin : json -> json -> result json.
Variable urldefrag : string -> result (string * string).
Variable unquote : string -> string.
Variable uri_normalize : json -> result string.
Variable fetch : string -> result json.
Variable _LATEST_VERSION : Class.
Variable best_match : list ValidationError -> option ValidationError.

Local Abbreviation select := (validator_for uri_normalize _LATEST_VERSION).
Local Abbreviation validate_function :=
  (validate urljoin urldefrag unquote uri_normalize fetch _LATEST_VERSION best_match).
Local Abbreviation check := (check_schema urljoin urldefrag unquote uri_normalize fetch).
Local Abbreviation engine := (iter_errors urljoin urldefrag unquote uri_normalize fetch).

Lemma validator_for_unregistered (reg : Registry) (members : list (string * json))
    (uri : json) (default_ : option Class) :
  dict_get "$schema" members = Some uri ->
  uridict_get uri_normalize (meta_schemas reg) uri = Ok None ->
  select reg (JObj members) default_ = (Ok _LATEST_VERSION, [metaschema_not_found]).
Proof.
  intros Hget Hnone. unfold validator_for, py_in, dict_has, py_getitem_str.
  rewrite Hget. cbn. now rewrite Hnone.
Qed.

(** C7.  For a schema whose ["$schema"] is not the URI of a registered
    meta-schema, [validator_for] does not raise: it returns the latest
    variant and issues one warning, a [DeprecationWarning]; the
    module-level [validate] then goes on as it does when it is given the
    latest variant, with that warning issued: it raises what the latest
    variant's [check_schema] raises on the schema; when the schema passes
    that check, it raises what the construction of the latest variant's
    validator raises, and otherwise runs that validator's [iter_errors] on
    the instance to its end, raises what the run raises, else the best
    match of the diagnostics of the run, and returns when there is
    none. *)
Theorem unknown_metaschema_degrades (reg : Registry) (members : list (string * json))
    (uri : json) (default_ : option Class) (depth : nat) (instance_ : json)
    (resolver : option RefResolver) :
  dict_get "$schema" members = Some uri ->
  uridict_get uri_normalize (meta_schemas reg) uri = Ok None ->
  select reg (JObj members) default_ = (Ok _LATEST_VERSION, [metaschema_not_found])
  /\ (exists text, metaschema_not_found = DeprecationWarning text)
  /\ validate_function depth reg instance_ (JObj members) None resolver
     = ((validate_function depth reg instance_ (JObj members)
           (Some _LATEST_VERSION) resolver).1,
        [metaschema_not_found])
  /\ (forall x,
      check depth reg _LATEST_VERSION (JObj members) = Err x ->
      validate_function depth reg instance_ (JObj members) None resolver
      = (Err x, [metaschema_not_found]))
  /\ (forall x,
      check depth reg _LATEST_VERSION (JObj members) = Ok tt ->
      Validator_init uri_normalize reg _LATEST_VERSION (JObj members) resolver = Err x ->
      validate_function depth reg instance_ (JObj members) None resolver
      = (Err x, [metaschema_not_found]))
  /\ (forall validator_ resolver',
      check depth reg _LATEST_VERSION (JObj members) = Ok tt ->
      Validator_init uri_normalize reg _LATEST_VERSION (JObj members) resolver
      = Ok (validator_, resolver') ->
      let all := engine depth validator_ All instance_ JNull resolver' in
      validate_function depth reg instance_ (JObj members) None resolver
      = (match how all with
         | Raised x => Err x
         | _ =>
             match best_match (yielded all) with
             | Some error => Err (Raised_ValidationError error)
             | None => Ok tt
             end
         end,
         [metaschema_not_found])).
Proof.
  intros Hget Hnone.
  split; [exact (validator_for_unregistered reg members uri default_ Hget Hnone) |].
  split; [eexists; reflexivity |].
  unfold validate. rewrite (validator_for_unregistered reg members uri None Hget Hnone).
  split; [reflexivity |]. cbn.
  split; [| split].
  - intros x ->. reflexivity.
  - intros x -> ->. reflexivity.
  - intros validator_ resolver' -> ->. reflexivity.
Qed.

(** C9.  For a mapping whose ["$schema"] is not registered, the answer is
    the latest variant whatever default the caller gives; the default is
    the answer for a boolean schema and for a schema without ["$schema"];
    and for any other schema the answer does not depend on the default. *)
Theorem default_only_without_dollar_schema (reg : Registry) (schema_ : json)
    (default_ other : Class) :
  (forall members uri,
      schema_ = JObj members ->
      dict_get "$schema" members = Some uri ->
      uridict_get uri_normalize (meta_schemas reg) uri = Ok None ->
      (select reg schema_ (Some default_)).1 = Ok _LATEST_VERSION)
  /\ (forall b, schema_ = JBool b ->
      select reg schema_ (Some default_) = (Ok default_, []))
  /\ (py_in "$schema" schema_ = Ok false ->
      select reg schema_ (Some default_) = (Ok default_, []))
  /\ ((forall b, schema_ <> JBool b) ->
      py_in "$schema" schema_ <> Ok false ->
      select reg schema_ (Some default_) = select reg schema_ (Some other)).
Proof.
  split; [| split; [| split]].
  - intros members uri -> Hget Hnone.
    now rewrite (validator_for_unregistered reg members uri (Some default_) Hget Hnone).
  - intros b ->. reflexivity.
  - intros Hin. unfold validator_for. rewrite Hin. now destruct schema_.
  - intros Hbool Hin. unfold validator_for.
    destruct schema_ as [| b | | | |]; try now destruct (Hbool b).
    all: destruct (py_in "$schema" _) as [[|] |]; try reflexivity; done.
Qed.

End Selection.

Section Derivation.

Variable uri_normalize : json -> result string.
Variable draft7_type_checker : TypeChecker.

Lemma validates_returns_class (version : string) (cls cls' : Class) (reg reg' : Registry) :
  validates uri_normalize version cls reg = (Ok cls', reg') -> cls' = cls.
Proof.
  unfold validates. destruct (_ ≫= _); [| discriminate].
  destruct (register_vocabularies _ _ _ _) as [[u | x] reg'']; congruence.
Qed.

Lemma create_returns_class meta_schema vocabulary_schemas validators_ version
    type_checker id_of applicable_validators_ reg cls reg' :
  create uri_normalize draft7_type_checker meta_schema vocabulary_schemas validators_
    version type_checker id_of applicable_validators_ reg = (Ok cls, reg') ->
  cls = {| VALIDATORS := default ∅ validators_;
           META_SCHEMA := meta_schema;
           VOCABULARY_SCHEMAS := default [] vocabulary_schemas;
           TYPE_CHECKER := default draft7_type_checker type_checker;
           ID_OF := default _id_of id_of;
           applicable_validators := default schema_items applicable_validators_ |}.
Proof.
  unfold create. destruct version as [v |].
  - apply validates_returns_class.
  - congruence.
Qed.

(** C10.  The class [extend] returns has the keyword table of the parent
    overlaid with the new callables (a new callable replaces the one of
    the same name), the parent's meta-schema and id function, the
    parent's type checker unless one is given, and, whatever the parent
    has, the default applicable-validators function [schema.items()] and
    no vocabulary schemas; without a version [extend] always returns. *)
Theorem extend_inherits (validator_ : Class) (new : option (gmap string callable))
    (version : option string) (type_checker : option TypeChecker)
    (reg reg' : Registry) (cls : Class) :
  extend uri_normalize draft7_type_checker validator_ new version type_checker reg
  = (Ok cls, reg') ->
  VALIDATORS cls = default ∅ new ∪ VALIDATORS validator_
  /\ (forall k c, default ∅ new !! k = Some c -> VALIDATORS cls !! k = Some c)
  /\ (forall k, default ∅ new !! k = None ->
        VALIDATORS cls !! k = VALIDATORS validator_ !! k)
  /\ META_SCHEMA cls = META_SCHEMA validator_
  /\ TYPE_CHECKER cls
     = match type_checker with None => TYPE_CHECKER validator_ | Some t => t end
  /\ ID_OF cls = ID_OF validator_
  /\ applicable_validators cls = schema_items
  /\ (forall members, applicable_validators cls (JObj members) = Ok members)
  /\ VOCABULARY_SCHEMAS cls = []
  /\ (exists cls0,
        extend uri_normalize draft7_type_checker validator_ new None type_checker reg
        = (Ok cls0, reg)).
Proof.
  unfold extend. intros ->%create_returns_class. cbn.
  repeat split.
  - intros k c Hk. now apply lookup_union_Some_l.
  - intros k Hk. now apply lookup_union_r.
  - eexists. reflexivity.
Qed.

End Derivation.

(** ** Closed instances *)

(** C7 at [{"$schema": "http://e.com/unknown", "title": "t", "minimum": 5}],
    with [TitledValidator] registered and taken as the latest variant: the
    schema passes the check of the latest variant, the instance [3] is
    refused with the diagnostic of ["minimum"], the instance [7] is
    accepted, and the warning is issued each time. *)
Lemma unknown_metaschema_example :
  let members := [("$schema", JStr "http://e.com/unknown"); ("title", JStr "t");
                  ("minimum", JNum 5)] in
  let validate_with instance_ :=
    validate urljoin_absolute urldefrag_plain unquote_plain normalize_plain fetch_offline
      TitledValidator best_match_of_one 10 titled_registry instance_ (JObj members)
      None None in
  dict_get "$schema" members = Some (JStr "http://e.com/unknown")
  /\ uridict_get normalize_plain (meta_schemas titled_registry) (JStr "http://e.com/unknown")
     = Ok None
  /\ validator_for normalize_plain TitledValidator titled_registry (JObj members) None
     = (Ok TitledValidator, [metaschema_not_found])
  /\ check_schema urljoin_absolute urldefrag_plain unquote_plain normalize_plain
       fetch_offline 10 titled_registry TitledValidator (JObj members) = Ok tt
  /\ validate_with (JNum 3)
     = (Err (Raised_ValidationError
               (stamp "minimum" (JNum 5) (JNum 3) (JObj members)
                  (error_ "less than the minimum"))),
        [metaschema_not_found])
  /\ validate_with (JNum 7) = (Ok tt, [metaschema_not_found]).
Proof.
  cbv zeta.
  assert (Hget : dict_get "$schema"
                   [("$schema", JStr "http://e.com/unknown"); ("title", JStr "t");
                    ("minimum", JNum 5)]
                 = Some (JStr "http://e.com/unknown")) by reflexivity.
  assert (Hnone : uridict_get normalize_plain (meta_schemas titled_registry)
                    (JStr "http://e.com/unknown") = Ok None)
    by (vm_compute; reflexivity).
  assert (Hcheck : check_schema urljoin_absolute urldefrag_plain unquote_plain
                     normalize_plain fetch_offline 10 titled_registry TitledValidator
                     (JObj [("$schema", JStr "http://e.com/unknown"); ("title", JStr "t");
                            ("minimum", JNum 5)]) = Ok tt)
    by (vm_compute; reflexivity).
  pose proof (fun instance_ =>
                unknown_metaschema_degrades urljoin_absolute urldefrag_plain unquote_plain
                  normalize_plain fetch_offline TitledValidator best_match_of_one
                  titled_registry _ _ None 10%nat instance_ None Hget Hnone) as Hthm.
  split; [exact Hget |]. split; [exact Hnone |].
  split; [exact (proj1 (Hthm JNull)) |]. split; [exact Hcheck |].
  split.
  - destruct (Hthm (JNum 3)) as (_ & _ & _ & _ & _ & Hgoes).
    erewrite Hgoes; [| exact Hcheck | reflexivity]. vm_compute. reflexivity.
  - destruct (Hthm (JNum 7)) as (_ & _ & _ & _ & _ & Hgoes).
    erewrite Hgoes; [| exact Hcheck | reflexivity]. vm_compute. reflexivity.
Defined.

(** C8 at the schema [{"minimum": 5}] and the instance [3]. *)
Lemma keyword_prepended_example :
  let schema_ := JObj [("minimum", JNum 5)] in
  let self := mkValidator TitledValidator schema_ in
  let engine := iter_errors urljoin_absolute urldefrag_plain unquote_plain normalize_plain
                  fetch_offline in
  let e' := stamp "minimum" (JNum 5) (JNum 3) schema_ (error_ "less than the minimum") in
  yielded (engine 10%nat self All (JNum 3) JNull (plain_resolver schema_)) = [e']
  /\ schema_path e' = [Key "minimum"]
  /\ exists pairs k v validator_ e r0,
      applicable_validators TitledValidator schema_ = Ok pairs
      /\ In (k, v) pairs
      /\ VALIDATORS TitledValidator !! k = Some validator_
      /\ In e (yielded (run urljoin_absolute urldefrag_plain unquote_plain normalize_plain
                          fetch_offline (engine 9%nat self) All
                          (validator_ v (JNum 3) schema_) r0))
      /\ e' = stamp k v (JNum 3) schema_ e
      /\ ((k = "if" \/ k = "$ref") -> schema_path e' = schema_path e)
      /\ (k <> "if" -> k <> "$ref" -> schema_path e' = Key k :: schema_path e).
Proof.
  cbv zeta. split; [vm_compute; reflexivity |]. split; [reflexivity |].
  apply (keyword_prepended_to_schema_path urljoin_absolute urldefrag_plain unquote_plain
           normalize_plain fetch_offline 9%nat
           (mkValidator TitledValidator (JObj [("minimum", JNum 5)])) All (JNum 3) JNull
           (plain_resolver (JObj [("minimum", JNum 5)]))).
  - intros b. discriminate.
  - vm_compute. left. reflexivity.
Defined.

(** C10 at a parent that ignores the siblings of ["$ref"] and has a
    vocabulary schema, extended with a new callable for ["minimum"]. *)
Lemma extend_example :
  let cls := {| VALIDATORS := {[ "minimum" := never_ ]} ∪ titled_keywords;
                META_SCHEMA := titled_meta_schema;
                VOCABULARY_SCHEMAS := [];
                TYPE_CHECKER := no_types;
                ID_OF := _id_of;
                applicable_validators := schema_items |} in
  extend normalize_plain no_types LegacyValidator (Some {[ "minimum" := never_ ]})
    None None empty_registry = (Ok cls, empty_registry)
  /\ VALIDATORS cls !! "minimum" = Some never_
  /\ VALIDATORS cls !! "required" = Some required_
  /\ applicable_validators LegacyValidator
       (JObj [("$ref", JStr "#"); ("minimum", JNum 5)]) = Ok [("$ref", JStr "#")]
  /\ applicable_validators cls
       (JObj [("$ref", JStr "#"); ("minimum", JNum 5)])
     = Ok [("$ref", JStr "#"); ("minimum", JNum 5)]
  /\ VOCABULARY_SCHEMAS LegacyValidator <> VOCABULARY_SCHEMAS cls.
Proof.
  cbv zeta.
  assert (Hextend :
    extend normalize_plain no_types LegacyValidator (Some {[ "minimum" := never_ ]})
      None None empty_registry
    = (Ok {| VALIDATORS := {[ "minimum" := never_ ]} ∪ titled_keywords;
             META_SCHEMA := titled_meta_schema;
             VOCABULARY_SCHEMAS := [];
             TYPE_CHECKER := no_types;
             ID_OF := _id_of;
             applicable_validators := schema_items |}, empty_registry))
    by reflexivity.
  pose proof (extend_inherits normalize_plain no_types LegacyValidator
                (Some {[ "minimum" := never_ ]}) None None empty_registry empty_registry
                _ Hextend) as (_ & Hnew & Hold & _ & _ & _ & _ & Hitems & _).
  split; [exact Hextend |]. split; [apply Hnew; reflexivity |].
  split; [rewrite Hold; reflexivity |]. split; [reflexivity |].
  split; [apply Hitems |]. discriminate.
Defined.

(** ** Further closed examples *)

(** A pointer through a property name with a slash, a negative index and
    a character of a string; an index out of range. *)
Example resolve_fragment_examples :
  let document := JObj [("a/b", JArr [JNum 1; JStr "xyz"]); ("m~n", JNum 7)] in
  resolve_fragment unquote_plain document "/a~1b/-1/1" = Ok (JStr "y")
  /\ resolve_fragment unquote_plain document "/m~0n" = Ok (JNum 7)
  /\ resolve_fragment unquote_plain document "" = Ok document
  /\ resolve_fragment unquote_plain document "/a~1b/2"
     = Err (RefResolutionError_unresolvable_pointer "a~1b/2")
  /\ resolve_fragment unquote_plain document "/m~0n/0"
     = Err (RefResolutionError_unresolvable_pointer "m~0n/0").
Proof. repeat split. Qed.

(** Nested ids and a reference that cannot be resolved: the engine raises
    a resolution error and the scope stack is as before. *)
Example scope_stack_example :
  let schema_ :=
    JObj [("$id", JStr "http://e.com/root");
          ("properties",
           JObj [("a", JObj [("$id", JStr "http://e.com/a");
                             ("$ref", JStr "http://e.com/missing")])])] in
  let r := {| referrer := schema_; cache_remote := true;
              _scopes_stack := [JStr "http://e.com/root"];
              store := {[ "http://e.com/root" := schema_ ]} |} in
  let o := iter_errors urljoin_absolute urldefrag_plain unquote_plain normalize_plain
             fetch_offline 10 (mkValidator TitledValidator schema_) All
             (JObj [("a", JNum 3)]) JNull r in
  Validator_init normalize_plain empty_registry TitledValidator schema_ None
  = Ok (mkValidator TitledValidator schema_, r)
  /\ yielded o = []
  /\ how o = Raised (RefResolutionError_from (Other_exception "URLError"))
  /\ (forall x, how o = Raised x -> is_RefResolutionError x = true)
  /\ _scopes_stack (resolver_after o) = [JStr "http://e.com/root"].
Proof.
  cbv zeta. split; [vm_compute; reflexivity |]. split; [vm_compute; reflexivity |].
  split; [vm_compute; reflexivity |]. split; [| vm_compute; reflexivity].
  intros x. vm_compute. now intros [= <-].
Qed.

(** A reference into the same document: the diagnostic of ["minimum"]
    comes back through ["$ref"] with its schema path unchanged, and
    [is_valid] and the method [validate] answer accordingly. *)
Example ref_example :
  let schema_ :=
    JObj [("$ref", JStr "#/definitions/m");
          ("definitions", JObj [("m", JObj [("minimum", JNum 5)])])] in
  let self := mkValidator TitledValidator schema_ in
  let r := plain_resolver schema_ in
  let e := stamp "$ref" (JStr "#/definitions/m") (JNum 3) schema_
             (stamp "minimum" (JNum 5) (JNum 3) (JObj [("minimum", JNum 5)])
                (error_ "less than the minimum")) in
  iter_errors urljoin_absolute urldefrag_plain unquote_plain normalize_plain fetch_offline
    10 self All (JNum 3) JNull r = mkOutcome [e] Finished r
  /\ schema_path e = [Key "minimum"]
  /\ validator e = given (Some "minimum")
  /\ is_valid urljoin_absolute urldefrag_plain unquote_plain normalize_plain fetch_offline
       10 self (JNum 3) JNull r = (Ok false, r)
  /\ is_valid urljoin_absolute urldefrag_plain unquote_plain normalize_plain fetch_offline
       10 self (JNum 8) JNull r = (Ok true, r)
  /\ Validator_validate urljoin_absolute urldefrag_plain unquote_plain normalize_plain
       fetch_offline 10 self (JNum 3) JNull r = (Err (Raised_ValidationError e), r)
  /\ is_valid urljoin_absolute urldefrag_plain unquote_plain normalize_plain fetch_offline
       1 self (JNum 3) JNull r = (Err RecursionError, r).
Proof. cbv zeta. repeat split; vm_compute; reflexivity. Qed.

(** The siblings of ["$ref"] that the parent ignores are applied by the
    class [extend] derives from it. *)
Example extend_loses_ref_siblings :
  let schema_ := JObj [("$ref", JStr "#/definitions/any"); ("minimum", JNum 5);
                       ("definitions", JObj [("any", JObj [("title", JStr "any")])])] in
  let r := plain_resolver schema_ in
  let engine := iter_errors urljoin_absolute urldefrag_plain unquote_plain normalize_plain
                  fetch_offline 10 in
  forall child reg,
    extend normalize_plain no_types LegacyValidator None None None empty_registry
    = (Ok child, reg) ->
    yielded (engine (mkValidator LegacyValidator schema_) All (JNum 3) JNull r) = []
    /\ yielded (engine (mkValidator child schema_) All (JNum 3) JNull r)
       = [stamp "minimum" (JNum 5) (JNum 3) schema_ (error_ "less than the minimum")].
Proof.
  cbv zeta. intros child reg [= <- <-]. split; vm_compute; reflexivity.
Qed.

(** * Further properties of the code *)

(** ** Scopes *)

Section Scopes.

Variable urljoin : json -> json -> result json.
Variable urldefrag : string -> result (string * string).
Variable unquote : string -> string.
Variable uri_normalize : json -> result string.
Variable fetch : string -> result json.

(** X1.  A [pop_scope] after a [push_scope] that succeeded gives back the
    resolver exactly as it was; in between, the stack is one deeper and
    the resolution scope is the pushed scope joined to the previous
    one. *)
Theorem push_then_pop (scope : json) (r r1 : RefResolver) :
  push_scope urljoin scope r = Ok r1 ->
  pop_scope r1 = Ok r
  /\ length (_scopes_stack r1) = S (length (_scopes_stack r))
  /\ exists top joined,
      resolution_scope r = Ok top
      /\ urljoin top scope = Ok joined
      /\ resolution_scope r1 = Ok joined.
Proof.
  unfold push_scope. intros Hpush.
  destruct (resolution_scope r) as [top |] eqn:Htop; cbn in Hpush; [| discriminate].
  destruct (urljoin top scope) as [joined |] eqn:Hjoin; cbn in Hpush; [| discriminate].
  injection Hpush as <-. split; [| split].
  - unfold pop_scope, with_stack. cbn.
    destruct (_scopes_stack r ++ [joined]) eqn:E; [now destruct (_scopes_stack r) |].
    rewrite <- E, removelast_snoc. now destruct r.
  - cbn. rewrite length_app. cbn. lia.
  - exists top, joined. repeat split; [exact Hjoin |].
    unfold resolution_scope. cbn. now rewrite last_snoc.
Qed.

(** X2.  [pop_scope] raises exactly on an empty stack, and then the
    resolution error about the empty stack; on any other stack it takes
    the last scope off and touches nothing else.  On an empty stack
    [push_scope] raises the [IndexError] of [resolution_scope], before
    anything is joined or pushed. *)
Theorem scope_stack_underflow (r : RefResolver) (scope : json) :
  (forall x, pop_scope r = Err x <-> _scopes_stack r = [] /\ x = RefResolutionError_empty_stack)
  /\ (forall r', pop_scope r = Ok r' ->
        exists top, _scopes_stack r = _scopes_stack r' ++ [top]
                    /\ referrer r' = referrer r /\ store r' = store r
                    /\ cache_remote r' = cache_remote r)
  /\ (_scopes_stack r = [] -> push_scope urljoin scope r = Err IndexError).
Proof.
  split; [| split].
  - intros x. unfold pop_scope. destruct (_scopes_stack r); split.
    + intros [= <-]. auto.
    + intros [_ ->]. reflexivity.
    + discriminate.
    + intros [[=] _].
  - intros r'. unfold pop_scope.
    destruct (_scopes_stack r) as [| a l] eqn:E; [discriminate |].
    destruct (exists_last (l := a :: l)) as (front & top & Hlast); [discriminate |].
    rewrite Hlast, removelast_snoc. intros [= <-]. exists top. cbn. auto.
  - intros Hempty. unfold push_scope, resolution_scope. now rewrite Hempty.
Qed.

End Scopes.

(** [push_scope] and [pop_scope] around the scope ["http://e.com/a"]. *)
Lemma push_then_pop_example :
  let r := plain_resolver (JObj []) in
  let r1 := with_stack [JStr ""; JStr "http://e.com/a"] r in
  push_scope urljoin_absolute (JStr "http://e.com/a") r = Ok r1
  /\ pop_scope r1 = Ok r
  /\ length (_scopes_stack r1) = S (length (_scopes_stack r))
  /\ exists top joined,
      resolution_scope r = Ok top
      /\ urljoin_absolute top (JStr "http://e.com/a") = Ok joined
      /\ resolution_scope r1 = Ok joined.
Proof.
  cbv zeta. split; [reflexivity |].
  apply (push_then_pop urljoin_absolute (JStr "http://e.com/a") (plain_resolver (JObj []))).
  reflexivity.
Defined.

Section In_scope.

Variable urljoin : json -> json -> result json.
Variable urldefrag : string -> result (string * string).
Variable unquote : string -> string.
Variable uri_normalize : json -> result string.
Variable fetch : string -> result json.

Lemma iter_errors_keeps_stack (depth : nat) (self : Validator) :
  forall d i s r,
    _scopes_stack
      (resolver_after
         (iter_errors urljoin urldefrag unquote uri_normalize fetch depth self d i s r))
    = _scopes_stack r.
Proof.
  induction depth as [| depth IH]; intros d i s r; cbn.
  - reflexivity.
  - now apply iter_errors_body_keeps_stack.
Qed.

(** X3.  [with resolver.in_scope(scope): body] leaves the scope stack as
    it found it, however the body ends; the body runs with the joined
    scope on top of the stack; and when the scope cannot be pushed the
    body does not run at all. *)
Theorem in_scope_is_temporary (depth : nat) (self : Validator) (d : demand)
    (scope : json) (body next : prog) (observe : list json -> prog) (r : RefResolver) :
  let run := run urljoin urldefrag unquote uri_normalize fetch
               (iter_errors urljoin urldefrag unquote uri_normalize fetch depth self) in
  _scopes_stack (resolver_after (run d (In_scope scope body next) r)) = _scopes_stack r
  /\ (forall top joined,
        resolution_scope r = Ok top -> urljoin top scope = Ok joined ->
        run d (In_scope scope (Scopes observe) next) r
        = run d (In_scope scope (observe (_scopes_stack r ++ [joined])) next) r)
  /\ (forall x, push_scope urljoin scope r = Err x ->
        run d (In_scope scope body next) r = raised x r).
Proof.
  cbv zeta. split; [| split].
  - apply run_keeps_stack. apply iter_errors_keeps_stack.
  - intros top joined Htop Hjoin. cbn. unfold push_scope. rewrite Htop. cbn.
    rewrite Hjoin. reflexivity.
  - intros x Hpush. cbn. now rewrite Hpush.
Qed.

End In_scope.

(** ** The tree search *)

Lemma _finditem_sound (key : string) (document : json) :
  forall subschema,
    In subschema (_finditem key document) ->
    dict_descendant document subschema
    /\ exists members, subschema = JObj members /\ dict_has key members = true.
Proof.
  induction document as [| b | n | s | items | members IH] using json_members_ind;
    intros subschema; cbn [_finditem]; try (intros []).
  intros Hin. apply in_app_or in Hin as [Hin | Hin].
  - destruct (dict_has key members) eqn:Hhas; [| destruct Hin].
    destruct Hin as [<- | []]. split; [constructor | eauto].
  - assert (Hvalue : exists k v, In (k, v) members
                                 /\ dict_descendant v subschema
                                 /\ exists m, subschema = JObj m /\ dict_has key m = true).
    { clear -IH Hin. induction IH as [| [k v] rest Hv _ IHrest]; [destruct Hin |].
      apply in_app_or in Hin as [Hin | Hin].
      - exists k, v. split; [now left |]. cbn in Hv.
        destruct v; try destruct Hin. now apply Hv.
      - destruct (IHrest Hin) as (k' & v' & Hin' & Hrest).
        exists k', v'. split; [now right | exact Hrest]. }
    destruct Hvalue as (k & v & Hkv & Hdesc & Hholds).
    split; [eapply descendant_member; eauto | exact Hholds].
Qed.

Lemma _finditem_complete (key : string) (document subschema : json) :
  dict_descendant document subschema ->
  (exists members, subschema = JObj members /\ dict_has key members = true) ->
  In subschema (_finditem key document).
Proof.
  intros Hdesc Hholds.
  induction Hdesc as [members | members k v s Hkv Hdesc IH]; cbn [_finditem].
  - destruct Hholds as (m & [= <-] & Hhas).
    rewrite Hhas. apply in_or_app. left. now left.
  - apply in_or_app. right. specialize (IH Hholds).
    clear -Hkv IH. induction members as [| [k' v'] rest IHrest]; [destruct Hkv |].
    apply in_or_app. destruct Hkv as [[= -> ->] | Hkv].
    + left. destruct v; try destruct IH. exact IH.
    + right. now apply IHrest.
Qed.

(** X4.  [_finditem] returns exactly the dicts that hold the key and are
    reached from the document through values of dicts: it never enters a
    list, and it finds nothing in a document that is not a dict. *)
Theorem _finditem_finds_dict_descendants (key : string) (document subschema : json) :
  In subschema (_finditem key document)
  <-> dict_descendant document subschema
      /\ exists members, subschema = JObj members /\ dict_has key members = true.
Proof.
  split.
  - apply _finditem_sound.
  - intros [Hdesc Hholds]. now apply _finditem_complete.
Qed.

(** A dict inside a list is a subdocument that [_finditem] does not find. *)
Example _finditem_skips_lists :
  _finditem "$id" (JObj [("allOf", JArr [JObj [("$id", JStr "http://e.com/a")]])]) = []
  /\ _finditem "$id" (JObj [("not", JObj [("$id", JStr "http://e.com/a")])])
     = [JObj [("$id", JStr "http://e.com/a")]]
  /\ _finditem "$id" (JArr [JObj [("$id", JStr "http://e.com/a")]]) = [].
Proof. repeat split. Qed.

(** ** Pointers to properties *)

Lemma escape_no_slash (name : string) : has_char "/" (escape name) = false.
Proof.
  induction name as [| a t IH]; [reflexivity |]. cbn [escape].
  destruct (Ascii.eqb a "~") eqn:Ht; [exact IH |].
  destruct (Ascii.eqb a "/") eqn:Hs; [exact IH |].
  cbn. now rewrite Hs.
Qed.

Lemma split_without_slash (s : string) :
  has_char "/" s = false -> PyStr.split "/" s = [s].
Proof.
  induction s as [| a t IH]; [reflexivity |]. simpl.
  destruct (Ascii.eqb a "/"); [discriminate |]. simpl. intros Ht. now rewrite IH.
Qed.

Lemma append_cons (a : ascii) (s t : string) : String a s +:+ t = String a (s +:+ t).
Proof. reflexivity. Qed.

Lemma split_at_slash (s t : string) :
  has_char "/" s = false ->
  PyStr.split "/" (s +:+ String "/" t) = s :: PyStr.split "/" t.
Proof.
  induction s as [| a s IH]; [reflexivity |].
  rewrite append_cons. simpl.
  destruct (Ascii.eqb a "/"); [discriminate |]. simpl. intros Hs. now rewrite IH.
Qed.

Lemma append_empty (s : string) : s +:+ "" = s.
Proof. induction s as [| a t IH]; [reflexivity |]. now rewrite append_cons, IH. Qed.

Lemma split_pointer (name : string) (rest : list string) :
  PyStr.split "/" (escape name +:+ pointer_of rest) = escape <$> (name :: rest).
Proof.
  revert name. induction rest as [| next rest IH]; intros name; cbn [pointer_of].
  - rewrite append_empty. apply split_without_slash, escape_no_slash.
  - rewrite split_at_slash by apply escape_no_slash. now rewrite IH.
Qed.

Lemma lstrip_pointer (name : string) (rest : string) :
  name <> "" ->
  PyStr.lstrip "/" (String "/" (escape name +:+ rest)) = escape name +:+ rest
  /\ escape name +:+ rest <> "".
Proof.
  intros Hname. cbn [PyStr.lstrip]. rewrite Ascii.eqb_refl.
  pose proof (escape_no_slash name) as Hslash.
  destruct (escape name) as [| a t] eqn:E.
  - destruct name as [| b u]; [done |]. cbn in E.
    destruct (Ascii.eqb b "~"); [discriminate |].
    destruct (Ascii.eqb b "/"); discriminate.
  - rewrite append_cons. cbn in *.
    destruct (Ascii.eqb a "/"); [discriminate |]. split; [reflexivity | discriminate].
Qed.

Lemma walk_lookup_path (fragment : string) (names : list string) :
  forall document value,
    lookup_path names document = Some value ->
    walk fragment document (escape <$> names) = Ok value.
Proof.
  induction names as [| name rest IH]; intros document value; cbn.
  - now intros [= ->].
  - destruct document as [| | | | | members]; try discriminate.
    destruct (dict_get name members) as [child |] eqn:Hget; [| discriminate].
    intros Hrest. unfold walk_step. cbn [is_Sequence getitem].
    rewrite unescape_escape, Hget. cbn. now apply IH.
Qed.

Section Pointer_round_trip.

Variable unquote : string -> string.

(** X5.  A property reached from the document by a path of property
    names, the first of them not empty, is what [resolve_fragment]
    returns for the pointer written from that path with [escape], when
    the pointer has no percent escape that [unquote] would decode and
    names no anchor of the document. *)
Theorem pointer_round_trip (document value : json) (name : string) (rest : list string) :
  let stripped := escape name +:+ pointer_of rest in
  name <> "" ->
  lookup_path (name :: rest) document = Some value ->
  unquote stripped = stripped ->
  find_anchor "$anchor" stripped document = None ->
  find_anchor "$dynamicAnchor" stripped document = None ->
  resolve_fragment unquote document (pointer_of (name :: rest)) = Ok value.
Proof.
  intros stripped Hname Hpath Hplain Hanchor Hdynamic.
  unfold resolve_fragment. cbn [pointer_of].
  destruct (lstrip_pointer name (pointer_of rest) Hname) as [-> Hnonempty].
  fold stripped in Hnonempty |- *.
  destruct (String.eqb_spec stripped ""); [done |].
  rewrite Hanchor, Hdynamic, Hplain. unfold stripped.
  rewrite split_pointer. now apply walk_lookup_path.
Qed.

End Pointer_round_trip.

(** The property ["a/b"] of the property ["m~n"]. *)
Lemma pointer_round_trip_example :
  let document := JObj [("m~n", JObj [("a/b", JNum 7)]); ("", JObj [("x", JNum 1)]);
                        ("x", JNum 2)] in
  pointer_of ["m~n"; "a/b"] = "/m~0n/a~1b"
  /\ resolve_fragment unquote_plain document "/m~0n/a~1b" = Ok (JNum 7)
  /\ lookup_path [""; "x"] document = Some (JNum 1)
  /\ resolve_fragment unquote_plain document (pointer_of [""; "x"]) = Ok (JNum 2).
Proof.
  cbv zeta. split; [reflexivity |]. split; [| split; reflexivity].
  apply (pointer_round_trip unquote_plain _ (JNum 7) "m~n" ["a/b"]); try reflexivity.
  discriminate.
Defined.

(** ** Resolution *)

Lemma walk_error_is_resolution_error (unquote : string -> string) (document : json)
    (fragment : string) (x : exn) :
  resolve_fragment unquote document fragment = Err x -> is_RefResolutionError x = true.
Proof.
  unfold resolve_fragment.
  destruct (String.eqb _ ""); [discriminate |].
  destruct (find_anchor "$anchor" _ document); [discriminate |].
  destruct (find_anchor "$dynamicAnchor" _ document); [discriminate |].
  now intros ->%walk_error.
Qed.

Lemma rstrip_has_no_trailing_slash (s : string) : ends_with "/" (PyStr.rstrip "/" s) = false.
Proof.
  induction s as [| a t IH]; [reflexivity |]. cbn [PyStr.rstrip].
  destruct (PyStr.rstrip "/" t) as [| b u].
  - destruct (Ascii.eqb a "/") eqn:E; [reflexivity | exact E].
  - exact IH.
Qed.

Section Resolution.

Variable urljoin : json -> json -> result json.
Variable urldefrag : string -> result (string * string).
Variable unquote : string -> string.
Variable uri_normalize : json -> result string.
Variable fetch : string -> result json.

(** X6.  Once [resolve_from_url] has answered for a URL in a resolver
    that caches remote documents, it gives the same answer for that URL
    again without retrieving anything: the second answer is the same
    whatever the retrieval would do, and it leaves the resolver as it
    is. *)
Theorem remote_document_is_cached (url : string) (r r' : RefResolver) (document : json) :
  cache_remote r = true ->
  resolve_from_url urldefrag unquote uri_normalize fetch url r = (Ok document, r') ->
  forall fetch',
    resolve_from_url urldefrag unquote uri_normalize fetch' url r' = (Ok document, r').
Proof.
  intros Hcache Hfirst fetch'. unfold resolve_from_url in *.
  destruct (urldefrag url) as [[u f] |]; [| discriminate].
  destruct (uri_normalize (JStr u)) as [key |] eqn:Hkey; [| discriminate].
  destruct (store r !! key) as [stored |] eqn:Hstore.
  - injection Hfirst as Hdoc <-. now rewrite Hstore, Hdoc.
  - unfold resolve_remote, store_set in Hfirst. rewrite Hcache, Hkey in Hfirst.
    destruct (fetch u) as [fetched |]; [| discriminate]. cbn in Hfirst.
    injection Hfirst as Hdoc <-. cbn [store with_store].
    now rewrite lookup_insert_eq, Hdoc.
Qed.

(** X7.  Once the URL is split and normalised, the only exceptions of
    [resolve_from_url] are resolution errors; when the document is not in
    the store and its retrieval raises, the error wraps that exception
    and the resolver is unchanged. *)
Theorem resolve_from_url_raises_resolution_errors (url u fragment key : string)
    (r r' : RefResolver) (x : exn) :
  urldefrag url = Ok (u, fragment) ->
  uri_normalize (JStr u) = Ok key ->
  resolve_from_url urldefrag unquote uri_normalize fetch url r = (Err x, r') ->
  is_RefResolutionError x = true
  /\ (forall exc, store r !! key = None -> fetch u = Err exc ->
        x = RefResolutionError_from exc /\ r' = r).
Proof.
  intros Hsplit Hkey. unfold resolve_from_url, resolve_remote, store_set.
  rewrite Hsplit, Hkey.
  destruct (store r !! key) as [stored |].
  - intros [= Hx <-]. split; [| discriminate].
    apply walk_error_is_resolution_error in Hx. exact Hx.
  - destruct (fetch u) as [fetched | exc].
    + destruct (cache_remote r); cbn; intros [= Hx <-]; (split; [| discriminate]);
        apply walk_error_is_resolution_error in Hx; exact Hx.
    + intros [= <- <-]. split; [reflexivity |]. intros exc' _ [= <-]. auto.
Qed.

(** X8.  The URL that [resolve] returns, which [resolving] pushes as the
    new scope, is the reference joined to the current scope with every
    trailing slash removed: it never ends with a slash. *)
Theorem resolve_url_has_no_trailing_slash (ref : json) (r r' : RefResolver)
    (url : string) (document : json) :
  resolve urljoin urldefrag unquote uri_normalize fetch ref r = (Ok (url, document), r') ->
  ends_with "/" url = false
  /\ exists scope joined,
      resolution_scope r = Ok scope
      /\ urljoin scope ref = Ok (JStr joined)
      /\ url = PyStr.rstrip "/" joined.
Proof.
  unfold resolve.
  destruct (resolution_scope r) as [scope |]; cbn; [| discriminate].
  destruct (urljoin scope ref) as [[| | | joined | |] |] eqn:Hjoin; cbn; try discriminate.
  intros Hresolved.
  assert (Hurl : url = PyStr.rstrip "/" joined).
  { destruct (resolve_local _ _ _ _ _ _) as [found |]; [| discriminate].
    destruct (truthy _); [congruence |].
    destruct (resolve_from_url _ _ _ _ _ _) as [[d | e] r0]; congruence. }
  split; [rewrite Hurl; apply rstrip_has_no_trailing_slash |].
  exists scope, joined. split; [reflexivity |]. split; [exact Hjoin | exact Hurl].
Qed.

(** X9.  [resolve_local] returns the Python value [None] in two cases
    only: no dict reached from the document through values of dicts has
    an ["$id"] that matches the target URI in the current scope (the loop
    ends); or such a dict matches, the URL has a fragment, and the fragment
    resolves inside that dict to the JSON value [null]. *)
Theorem resolve_local_None (r : RefResolver) (url uri fragment : string)
    (document : json) (answer : option json) :
  urldefrag url = Ok (uri, fragment) ->
  resolve_local urljoin urldefrag unquote r url document = Ok answer ->
  answer = None \/ answer = Some JNull ->
  (answer = None
   /\ forall subschema,
       dict_descendant document subschema -> ~ local_match urljoin r uri subschema)
  \/ (answer = Some JNull
      /\ exists subschema,
          dict_descendant document subschema
          /\ local_match urljoin r uri subschema
          /\ fragment <> ""
          /\ resolve_fragment unquote subschema fragment = Ok JNull).
Proof.
  intros Hsplit. unfold resolve_local. rewrite Hsplit. cbn.
  intros Hanswer [-> | ->].
  - left. split; [reflexivity |]. intros subschema Hdesc Hmatch.
    eapply resolve_local_in_None; [exact Hanswer | | exact Hmatch].
    apply _finditem_complete; [exact Hdesc |].
    destruct Hmatch as (members & id & _ & _ & _ & -> & Hid & _).
    exists members. split; [reflexivity |]. unfold dict_has. now rewrite Hid.
  - right. split; [reflexivity |].
    apply resolve_local_in_Some in Hanswer as (subschema & Hin & Hmatch & Hfound).
    + exists subschema. split; [now apply _finditem_sound in Hin |].
      split; [exact Hmatch |].
      destruct (String.eqb_spec fragment "") as [-> | Hfragment].
      * destruct Hmatch as (members & _ & _ & _ & _ & -> & _). discriminate Hfound.
      * split; [exact Hfragment | exact Hfound].
    + apply Forall_forall. intros s Hs%list_elem_of_In.
      eapply _finditem_holds_key, Hs.
Qed.

End Resolution.

Section Root_document.

Variable urldefrag : string -> result (string * string).
Variable unquote : string -> string.
Variable uri_normalize : json -> result string.

(** X10.  The resolver [from_schema] builds starts with the id of the
    schema as its only scope and with the schema in its store under that
    id: a URL whose part before the fragment normalises to the same key
    is answered from the schema itself, without any retrieval and without
    changing the resolver. *)
Theorem root_document_is_in_the_store (reg : Registry) (id_of : json -> result json)
    (schema_ : json) (r : RefResolver) :
  from_schema uri_normalize reg id_of schema_ = Ok r ->
  exists base,
    id_of schema_ = Ok base
    /\ _scopes_stack r = [base]
    /\ referrer r = schema_
    /\ cache_remote r = true
    /\ forall url u fragment fetch,
        urldefrag url = Ok (u, fragment) ->
        uri_normalize (JStr u) = uri_normalize base ->
        resolve_from_url urldefrag unquote uri_normalize fetch url r
        = (resolve_fragment unquote schema_ fragment, r).
Proof.
  unfold from_schema, RefResolver_init.
  destruct (id_of schema_) as [base |]; cbn; [| discriminate].
  destruct (uri_normalize base) as [key |] eqn:Hkey; cbn; [| discriminate].
  intros [= <-]. exists base. repeat split.
  intros url u fragment fetch Hsplit Hsame. unfold resolve_from_url.
  rewrite Hsplit, Hsame, Hkey. cbn [store]. now rewrite lookup_insert_eq.
Qed.

End Root_document.

(** X6 at a document retrieved once and then asked for where nothing can
    be retrieved. *)
Lemma remote_document_is_cached_example :
  let url := "http://e.com/remote#/definitions/m" in
  let r := plain_resolver (JObj []) in
  let first := resolve_from_url urldefrag_plain unquote_plain normalize_plain fetch_remote
                 url r in
  first.1 = Ok (JObj [("minimum", JNum 5)])
  /\ store first.2 !! "http://e.com/remote" = Some remote_document
  /\ resolve_from_url urldefrag_plain unquote_plain normalize_plain fetch_offline url first.2
     = (Ok (JObj [("minimum", JNum 5)]), first.2).
Proof.
  cbv zeta. split; [vm_compute; reflexivity |]. split; [vm_compute; reflexivity |].
  apply (remote_document_is_cached urldefrag_plain unquote_plain normalize_plain fetch_remote
           "http://e.com/remote#/definitions/m" (plain_resolver (JObj []))).
  - reflexivity.
  - vm_compute. reflexivity.
Defined.

(** X7 where nothing can be retrieved. *)
Lemma resolve_from_url_raises_example :
  resolve_from_url urldefrag_plain unquote_plain normalize_plain fetch_offline
    "http://e.com/a#/definitions/e" nested_id_resolver
  = (Err (RefResolutionError_from (Other_exception "URLError")), nested_id_resolver)
  /\ is_RefResolutionError (RefResolutionError_from (Other_exception "URLError")) = true
  /\ (forall exc, store nested_id_resolver !! "http://e.com/a" = None ->
        fetch_offline "http://e.com/a" = Err exc ->
        RefResolutionError_from (Other_exception "URLError") = RefResolutionError_from exc
        /\ nested_id_resolver = nested_id_resolver).
Proof.
  assert (H : resolve_from_url urldefrag_plain unquote_plain normalize_plain fetch_offline
                "http://e.com/a#/definitions/e" nested_id_resolver
              = (Err (RefResolutionError_from (Other_exception "URLError")),
                 nested_id_resolver)) by (vm_compute; reflexivity).
  split; [exact H |].
  exact (resolve_from_url_raises_resolution_errors urldefrag_plain unquote_plain
           normalize_plain fetch_offline "http://e.com/a#/definitions/e" "http://e.com/a"
           "/definitions/e" "http://e.com/a" nested_id_resolver nested_id_resolver _
           eq_refl eq_refl H).
Defined.

(** X8 at a reference that ends with a slash. *)
Lemma resolve_url_example :
  let schema_ := JObj [("definitions", JObj [("m", JObj [("minimum", JNum 5)])])] in
  let r := plain_resolver schema_ in
  resolve urljoin_absolute urldefrag_plain unquote_plain normalize_plain fetch_offline
    (JStr "#/definitions/m/") r = (Ok ("#/definitions/m", JObj [("minimum", JNum 5)]), r)
  /\ ends_with "/" "#/definitions/m" = false
  /\ exists scope joined,
      resolution_scope r = Ok scope
      /\ urljoin_absolute scope (JStr "#/definitions/m/") = Ok (JStr joined)
      /\ "#/definitions/m" = PyStr.rstrip "/" joined.
Proof.
  cbv zeta.
  assert (H : resolve urljoin_absolute urldefrag_plain unquote_plain normalize_plain
                fetch_offline (JStr "#/definitions/m/")
                (plain_resolver (JObj [("definitions",
                                        JObj [("m", JObj [("minimum", JNum 5)])])]))
              = (Ok ("#/definitions/m", JObj [("minimum", JNum 5)]),
                 plain_resolver (JObj [("definitions",
                                        JObj [("m", JObj [("minimum", JNum 5)])])])))
    by (vm_compute; reflexivity).
  split; [exact H |].
  exact (resolve_url_has_no_trailing_slash urljoin_absolute urldefrag_plain unquote_plain
           normalize_plain fetch_offline _ _ _ _ _ H).
Defined.

(** X9 at [{"$id": "http://e.com/a", "x": null}] and the URL
    ["http://e.com/a#/x"]: the document matches, and the fragment resolves
    to [null] inside it. *)
Lemma resolve_local_None_example :
  let document := JObj [("$id", JStr "http://e.com/a"); ("x", JNull)] in
  let r := plain_resolver document in
  resolve_local urljoin_absolute urldefrag_plain unquote_plain r "http://e.com/a#/x" document
  = Ok (Some JNull)
  /\ exists subschema,
      dict_descendant document subschema
      /\ local_match urljoin_absolute r "http://e.com/a" subschema
      /\ "/x" <> ""
      /\ resolve_fragment unquote_plain subschema "/x" = Ok JNull.
Proof.
  cbv zeta. split; [reflexivity |].
  destruct (resolve_local_None urljoin_absolute urldefrag_plain unquote_plain
              (plain_resolver (JObj [("$id", JStr "http://e.com/a"); ("x", JNull)]))
              "http://e.com/a#/x" "http://e.com/a" "/x"
              (JObj [("$id", JStr "http://e.com/a"); ("x", JNull)]) (Some JNull)
              eq_refl eq_refl (or_intror eq_refl))
    as [[Hnone _] | [_ Hfound]]; [discriminate Hnone | exact Hfound].
Defined.

(** X10 at the schema [{"$id": "http://e.com/root", ...}]. *)
Lemma root_document_example :
  let schema_ := JObj [("$id", JStr "http://e.com/root");
                       ("definitions", JObj [("m", JObj [("minimum", JNum 5)])])] in
  exists r,
    from_schema normalize_plain titled_registry _id_of schema_ = Ok r
    /\ _scopes_stack r = [JStr "http://e.com/root"]
    /\ resolve_from_url urldefrag_plain unquote_plain normalize_plain fetch_offline
         "http://e.com/root#/definitions/m" r = (Ok (JObj [("minimum", JNum 5)]), r).
Proof.
  cbv zeta.
  destruct (from_schema normalize_plain titled_registry _id_of
              (JObj [("$id", JStr "http://e.com/root");
                     ("definitions", JObj [("m", JObj [("minimum", JNum 5)])])]))
    as [r |] eqn:Hr; [| discriminate Hr].
  exists r. split; [reflexivity |].
  destruct (root_document_is_in_the_store urldefrag_plain unquote_plain normalize_plain
              _ _ _ _ Hr) as (base & Hbase & Hstack & _ & _ & Hresolve).
  injection Hbase as <-. split; [exact Hstack |].
  rewrite (Hresolve "http://e.com/root#/definitions/m" "http://e.com/root"
             "/definitions/m" fetch_offline eq_refl eq_refl).
  reflexivity.
Defined.

(** ** How the entry points agree *)

Section Agreement.

Variable urljoin : json -> json -> result json.
Variable urldefrag : string -> result (string * string).
Variable unquote : string -> string.
Variable uri_normalize : json -> result string.
Variable fetch : string -> result json.
Variable _LATEST_VERSION : Class.
Variable best_match : list ValidationError -> option ValidationError.

Local Abbreviation engine := (iter_errors urljoin urldefrag unquote uri_normalize fetch).
Local Abbreviation valid := (is_valid urljoin urldefrag unquote uri_normalize fetch).
Local Abbreviation check := (check_schema urljoin urldefrag unquote uri_normalize fetch).

(** X11.  [check_schema] is [is_valid] of the engine built on the
    meta-schema, applied to the schema: it returns when that engine finds
    the schema valid, raises a [SchemaError] when it finds it invalid,
    and lets through any exception [is_valid] would raise. *)
Theorem check_schema_agrees_with_is_valid (depth : nat) (reg : Registry) (cls : Class)
    (schema_ : json) (meta_validator : Validator) (meta_resolver : RefResolver) :
  Validator_init uri_normalize reg cls (JObj (META_SCHEMA cls)) None
  = Ok (meta_validator, meta_resolver) ->
  let answer := (valid depth meta_validator schema_ JNull meta_resolver).1 in
  (check depth reg cls schema_ = Ok tt <-> answer = Ok true)
  /\ (answer = Ok false -> exists e, check depth reg cls schema_ = Err (SchemaError e))
  /\ (forall x, answer = Err x -> check depth reg cls schema_ = Err x).
Proof.
  intros Hinit. cbv zeta. unfold check_schema, is_valid. rewrite Hinit. cbn.
  destruct (next_or_None _) as [[e |] | x].
  - split; [split; discriminate |]. split; [eauto | discriminate].
  - split; [split; reflexivity |]. split; [discriminate | discriminate].
  - split; [split; discriminate |]. split; [discriminate | congruence].
Qed.

(** X12.  The method [validate] and [is_valid] agree: [validate] returns
    exactly when [is_valid] is [True]; when [is_valid] is [False],
    [validate] raises the first diagnostic of [iter_errors]; an exception
    of one is the exception of the other; and both leave the resolver in
    the same state. *)
Theorem validate_agrees_with_is_valid (depth : nat) (self : Validator)
    (instance_ _schema : json) (r : RefResolver) :
  let raised_or_not := Validator_validate urljoin urldefrag unquote uri_normalize fetch
                         depth self instance_ _schema r in
  let answer := valid depth self instance_ _schema r in
  (raised_or_not.1 = Ok tt <-> answer.1 = Ok true)
  /\ (answer.1 = Ok false <->
      exists e, head (yielded (engine depth self All instance_ _schema r)) = Some e
                /\ raised_or_not.1 = Err (Raised_ValidationError e))
  /\ (forall x, answer.1 = Err x -> raised_or_not.1 = Err x)
  /\ raised_or_not.2 = answer.2.
Proof.
  cbv zeta. unfold Validator_validate, is_valid. cbn [fst snd].
  rewrite next_or_None_first.
  destruct (yielded (engine depth self All instance_ _schema r)) as [| e es]; cbn.
  - destruct (how _) as [| | x].
    + repeat split; try discriminate. intros (e & [=] & _).
    + repeat split; try discriminate. intros (e & [=] & _).
    + repeat split; try discriminate; try congruence. intros (e & [=] & _).
  - repeat split; try discriminate; eauto.
Qed.

Hypothesis best_match_None : forall errors, best_match errors = None <-> errors = [].

(** X13.  When [best_match] selects a diagnostic whenever there is one,
    the module-level [validate] returns exactly when the schema passes
    [check_schema] and the engine built for the schema finds the instance
    valid. *)
Theorem validate_returns_iff_valid (depth : nat) (reg : Registry) (cls : Class)
    (instance_ schema_ : json) (resolver : option RefResolver)
    (validator_ : Validator) (r : RefResolver) :
  Validator_init uri_normalize reg cls schema_ resolver = Ok (validator_, r) ->
  (validate urljoin urldefrag unquote uri_normalize fetch _LATEST_VERSION best_match
     depth reg instance_ schema_ (Some cls) resolver).1 = Ok tt
  <-> check depth reg cls schema_ = Ok tt
      /\ (valid depth validator_ instance_ JNull r).1 = Ok true.
Proof.
  intros Hinit. unfold validate, is_valid.
  cbn -[check_schema iter_errors Validator_init].
  rewrite next_or_None_first.
  destruct (check depth reg cls schema_) as [[] | x];
    cbn -[iter_errors Validator_init]; [| split; [discriminate | intros [[=] _]]].
  rewrite Hinit. cbn -[iter_errors].
  destruct (iter_errors_cut urljoin urldefrag unquote uri_normalize fetch depth validator_
              instance_ JNull r) as [_ Hopen].
  destruct (yielded (engine depth validator_ All instance_ JNull r)) as [| e es] eqn:Hy.
  - rewrite (proj2 (best_match_None []) eq_refl).
    destruct (how (engine depth validator_ All instance_ JNull r)) as [| | x];
      [tauto | done | split; [discriminate | intros [_ [=]]]].
  - destruct (best_match (e :: es)) as [selected |] eqn:Hbest.
    + destruct (how _); (split; [discriminate | intros [_ [=]]]).
    + apply best_match_None in Hbest. discriminate.
Qed.

End Agreement.

(** ** Keywords without a callable *)

Section Unregistered.

Variable urljoin : json -> json -> result json.
Variable urldefrag : string -> result (string * string).
Variable unquote : string -> string.
Variable uri_normalize : json -> result string.
Variable fetch : string -> result json.

Lemma pop_undoes_push (scope : json) (r r1 : RefResolver) :
  push_scope urljoin scope r = Ok r1 -> pop_scope r1 = Ok r.
Proof.
  unfold push_scope. intros Hpush.
  destruct (resolution_scope r) as [top |]; cbn in Hpush; [| discriminate].
  destruct (urljoin top scope) as [joined |]; cbn in Hpush; [| discriminate].
  injection Hpush as <-. unfold pop_scope, with_stack. cbn.
  destruct (_scopes_stack r ++ [joined]) eqn:E; [now destruct (_scopes_stack r) |].
  rewrite <- E, removelast_snoc. now destruct r.
Qed.

Lemma each_keyword_unregistered (rec : demand -> json -> json -> RefResolver -> outcome)
    (table : gmap string callable) (d : demand) (instance_ _schema : json)
    (pairs : list (string * json)) (r : RefResolver) :
  (forall k v, In (k, v) pairs -> table !! k = None) ->
  each_keyword urljoin urldefrag unquote uri_normalize fetch rec table d instance_ _schema
    pairs r = finished r.
Proof.
  induction pairs as [| [k v] rest IH]; intros Hnone; cbn [each_keyword]; [reflexivity |].
  pose proof (Hnone k v (or_introl eq_refl)) as Hk. cbv beta in Hk.
  destruct (table !! k) as [c |]; [discriminate Hk |]. apply IH. intros k' v' Hin. apply (Hnone k' v'). now right.
Qed.

(** X14.  A schema none of whose applicable keywords has a callable
    produces no diagnostic for any instance: the engine finishes and
    leaves the resolver exactly as it was, unless the schema has an id
    that cannot be pushed, in which case it raises what [push_scope]
    raises. *)
Theorem unregistered_keywords_are_ignored (depth : nat) (self : Validator) (d : demand)
    (instance_ _schema : json) (r : RefResolver) (scope : json)
    (pairs : list (string * json)) :
  let effective := match _schema with JNull => self_schema self | _ => _schema end in
  let o := iter_errors urljoin urldefrag unquote uri_normalize fetch (S depth) self d
             instance_ _schema r in
  (forall b, effective <> JBool b) ->
  ID_OF (class_of self) effective = Ok scope ->
  applicable_validators (class_of self) effective = Ok pairs ->
  (forall k v, In (k, v) pairs -> VALIDATORS (class_of self) !! k = None) ->
  yielded o = []
  /\ (truthy scope = false -> o = finished r)
  /\ (forall r1, push_scope urljoin scope r = Ok r1 -> o = finished r)
  /\ (forall x, truthy scope = true -> push_scope urljoin scope r = Err x -> o = raised x r).
Proof.
  intros effective o Hmapping Hid Hpairs Hnone. subst o.
  cbn [iter_errors]. unfold iter_errors_body. fold effective.
  assert (Hgeneral :
    match ID_OF (class_of self) effective with
    | Ok scope =>
        if truthy scope
        then match push_scope urljoin scope r with
             | Ok r1 =>
                 finally_pop
                   (try_block urljoin urldefrag unquote uri_normalize fetch
                      (iter_errors urljoin urldefrag unquote uri_normalize fetch depth self)
                      (class_of self) d instance_ effective r1)
             | Err x => raised x r
             end
        else try_block urljoin urldefrag unquote uri_normalize fetch
               (iter_errors urljoin urldefrag unquote uri_normalize fetch depth self)
               (class_of self) d instance_ effective r
    | Err x => raised x r
    end
    = if truthy scope
      then match push_scope urljoin scope r with
           | Ok r1 => finished r
           | Err x => raised x r
           end
      else finished r).
  { rewrite Hid. unfold try_block. rewrite Hpairs.
    destruct (truthy scope).
    - destruct (push_scope urljoin scope r) as [r1 |] eqn:Hpush; [| reflexivity].
      rewrite each_keyword_unregistered by exact Hnone.
      unfold finally_pop, finished. cbn. now rewrite (pop_undoes_push _ _ _ Hpush).
    - now apply each_keyword_unregistered. }
  assert (Hrun :
    match effective with
    | JBool true => finished r
    | JBool false => yield d (false_schema_error instance_) r finished
    | _ =>
        match ID_OF (class_of self) effective with
        | Ok scope =>
            if truthy scope
            then match push_scope urljoin scope r with
                 | Ok r1 =>
                     finally_pop
                       (try_block urljoin urldefrag unquote uri_normalize fetch
                          (iter_errors urljoin urldefrag unquote uri_normalize fetch depth self)
                          (class_of self) d instance_ effective r1)
                 | Err x => raised x r
                 end
            else try_block urljoin urldefrag unquote uri_normalize fetch
                   (iter_errors urljoin urldefrag unquote uri_normalize fetch depth self)
                   (class_of self) d instance_ effective r
        | Err x => raised x r
        end
    end
    = if truthy scope
      then match push_scope urljoin scope r with
           | Ok r1 => finished r
           | Err x => raised x r
           end
      else finished r).
  { destruct effective as [| b | | | |]; try exact Hgeneral. now destruct (Hmapping b). }
  rewrite Hrun. clear Hrun Hgeneral.
  destruct (truthy scope); destruct (push_scope urljoin scope r) as [r1 |];
    repeat split; try reflexivity; try discriminate; intros; congruence.
Qed.

End Unregistered.

(** X14 at the empty schema and at a schema with an id and an annotation
    only. *)
Lemma unregistered_keywords_example :
  let engine := iter_errors urljoin_absolute urldefrag_plain unquote_plain normalize_plain
                  fetch_offline 10 in
  let annotated := JObj [("$id", JStr "http://e.com/a"); ("title", JStr "a")] in
  (forall instance_ r,
      engine (mkValidator TitledValidator (JObj [])) All instance_ JNull r = finished r)
  /\ (forall instance_,
        engine (mkValidator TitledValidator annotated) All instance_ JNull
          (plain_resolver annotated) = finished (plain_resolver annotated)).
Proof.
  cbv zeta. split.
  - intros instance_ r.
    apply (unregistered_keywords_are_ignored urljoin_absolute urldefrag_plain unquote_plain
             normalize_plain fetch_offline 9 (mkValidator TitledValidator (JObj [])) All
             instance_ JNull r (JStr "") []); try reflexivity.
    + intros b. discriminate.
    + intros k v [].
  - intros instance_.
    eapply (unregistered_keywords_are_ignored urljoin_absolute urldefrag_plain unquote_plain
              normalize_plain fetch_offline 9
              (mkValidator TitledValidator
                 (JObj [("$id", JStr "http://e.com/a"); ("title", JStr "a")]))
              All instance_ JNull _ (JStr "http://e.com/a")
              [("$id", JStr "http://e.com/a"); ("title", JStr "a")]); try reflexivity.
    + intros b. discriminate.
    + intros k v [[= <- <-] | [[= <- <-] | []]]; reflexivity.
Defined.

(** ** Registration and selection *)

Section Registration.

Variable uri_normalize : json -> result string.
Variable draft7_type_checker : TypeChecker.
Variable _LATEST_VERSION : Class.

Local Abbreviation select := (validator_for uri_normalize _LATEST_VERSION).

(** X15.  [validator_for] issues at most one warning, and issues it
    exactly when the schema is a mapping whose ["$schema"] is looked up
    in the registry and not found; a registered ["$schema"] selects its
    class without a warning, whatever the default. *)
Theorem validator_for_warns_iff_unregistered (reg : Registry) (schema_ : json)
    (default_ : option Class) :
  ((select reg schema_ default_).2 <> [] <->
   exists members uri,
     schema_ = JObj members
     /\ dict_get "$schema" members = Some uri
     /\ uridict_get uri_normalize (meta_schemas reg) uri = Ok None)
  /\ ((select reg schema_ default_).2 = []
      \/ select reg schema_ default_ = (Ok _LATEST_VERSION, [metaschema_not_found]))
  /\ (forall members uri cls,
        schema_ = JObj members ->
        dict_get "$schema" members = Some uri ->
        uridict_get uri_normalize (meta_schemas reg) uri = Ok (Some cls) ->
        select reg schema_ default_ = (Ok cls, [])).
Proof.
  unfold validator_for.
  destruct schema_ as [| b | n | s | items | members]; cbn [py_in py_getitem_str].
  1-5: split; [split; [try done; try (destruct (existsb _ _) || destruct (str_contains _ _));
                         cbn; done
                      | intros (m & u & [=] & _)] |];
       (split; [left; try reflexivity;
                try (destruct (existsb _ _) || destruct (str_contains _ _)); reflexivity
               | intros m u c [=]]).
  unfold dict_has.
  destruct (dict_get "$schema" members) as [uri |] eqn:Hget; cbn.
  - destruct (uridict_get uri_normalize (meta_schemas reg) uri) as [[cls |] | x] eqn:Hreg.
    + split; [split; [done | intros (m & u & [= <-] & Hu & Hnone); congruence] |].
      split; [now left |]. intros m u c [= <-] Hu Hc. congruence.
    + split; [split; [intros _; eauto | discriminate] |].
      split; [now right |]. intros m u c [= <-] Hu Hc. congruence.
    + split; [split; [done | intros (m & u & [= <-] & Hu & Hnone); congruence] |].
      split; [now left |]. intros m u c [= <-] Hu Hc. congruence.
  - split; [split; [done | intros (m & u & [= <-] & Hu & _); congruence] |].
    split; [now left |]. intros m u c [= <-] Hu. congruence.
Qed.

Lemma register_vocabularies_keeps_classes (id_of : json -> result json)
    (vocabularies : list json) :
  forall reg answer reg',
    register_vocabularies uri_normalize id_of vocabularies reg = (answer, reg') ->
    validators reg' = validators reg /\ meta_schemas reg' = meta_schemas reg.
Proof.
  induction vocabularies as [| vocabulary rest IH]; intros reg answer reg'; cbn.
  - intros [= _ <-]. auto.
  - destruct (_ ≫= _) as [table |]; [| intros [= _ <-]; auto].
    intros Hrest. apply IH in Hrest. exact Hrest.
Qed.

(** X16.  A class that [create] registers under a version is found
    again: it is in [validators] under that version, and [validator_for]
    selects it, without a warning, for every mapping whose ["$schema"] is
    the id of its meta-schema. *)
Theorem created_class_is_selected (meta_schema : list (string * json))
    (vocabulary_schemas : option (list json)) (validators_ : option (gmap string callable))
    (version : string) (type_checker : option TypeChecker)
    (id_of : option (json -> result json))
    (applicable_validators_ : option (json -> result (list (string * json))))
    (reg reg' : Registry) (cls : Class) (id : json) (members : list (string * json))
    (default_ : option Class) :
  create uri_normalize draft7_type_checker meta_schema vocabulary_schemas validators_
    (Some version) type_checker id_of applicable_validators_ reg = (Ok cls, reg') ->
  ID_OF cls (JObj meta_schema) = Ok id ->
  dict_get "$schema" members = Some id ->
  validators reg' !! version = Some cls
  /\ select reg' (JObj members) default_ = (Ok cls, []).
Proof.
  intros Hcreate Hid Hschema.
  pose proof (create_returns_class _ _ _ _ _ _ _ _ _ _ _ _ Hcreate) as Hcls.
  unfold create, validates in Hcreate. rewrite <- Hcls in Hcreate.
  cbn [META_SCHEMA ID_OF VOCABULARY_SCHEMAS validators meta_schemas _VOCABULARIES] in Hcreate.
  replace (META_SCHEMA cls) with meta_schema in Hcreate by now rewrite Hcls.
  rewrite Hid in Hcreate. cbn in Hcreate. unfold uridict_set in Hcreate.
  destruct (uri_normalize id) as [key |] eqn:Hkey; cbn in Hcreate; [| discriminate].
  destruct (register_vocabularies _ _ _ _) as [[u | x] reg''] eqn:Hvocab; [| discriminate].
  injection Hcreate as <-.
  apply register_vocabularies_keeps_classes in Hvocab as [Hv Hm]. cbn in Hv, Hm.
  split.
  - rewrite Hv. apply lookup_insert_eq.
  - unfold validator_for, py_in, dict_has, py_getitem_str, uridict_get.
    rewrite Hschema. cbn. rewrite Hkey. cbn. rewrite Hm, lookup_insert_eq. reflexivity.
Qed.

(** X17.  Extending twice is extending once with the second overlay laid
    over the first: the two classes are the same. *)
Theorem extend_twice (validator_ child grandchild : Class)
    (first second : gmap string callable) (reg reg1 reg2 : Registry) :
  extend uri_normalize draft7_type_checker validator_ (Some first) None None reg
  = (Ok child, reg1) ->
  extend uri_normalize draft7_type_checker child (Some second) None None reg1
  = (Ok grandchild, reg2) ->
  extend uri_normalize draft7_type_checker validator_ (Some (second ∪ first)) None None reg
  = (Ok grandchild, reg)
  /\ reg2 = reg.
Proof.
  unfold extend, create. cbn. intros [= <- <-] [= <- <-]. cbn.
  now rewrite (assoc_L (∪)).
Qed.

End Registration.

(** X11 at a schema with a title and at one without. *)
Lemma check_schema_example :
  let titled := JObj [("title", JStr "t"); ("minimum", JNum 5)] in
  let untitled := JObj [("minimum", JNum 5)] in
  let meta := mkValidator TitledValidator (JObj titled_meta_schema) in
  let r := plain_resolver (JObj titled_meta_schema) in
  let check := check_schema urljoin_absolute urldefrag_plain unquote_plain normalize_plain
                 fetch_offline 10 empty_registry TitledValidator in
  let valid := is_valid urljoin_absolute urldefrag_plain unquote_plain normalize_plain
                 fetch_offline 10 meta in
  (valid titled JNull r).1 = Ok true
  /\ check titled = Ok tt
  /\ (valid untitled JNull r).1 = Ok false
  /\ exists e, check untitled = Err (SchemaError e).
Proof.
  cbv zeta.
  pose proof (check_schema_agrees_with_is_valid urljoin_absolute urldefrag_plain
                unquote_plain normalize_plain fetch_offline 10 empty_registry
                TitledValidator (JObj [("title", JStr "t"); ("minimum", JNum 5)])
                (mkValidator TitledValidator (JObj titled_meta_schema))
                (plain_resolver (JObj titled_meta_schema)) eq_refl) as (Hgood & _ & _).
  pose proof (check_schema_agrees_with_is_valid urljoin_absolute urldefrag_plain
                unquote_plain normalize_plain fetch_offline 10 empty_registry
                TitledValidator (JObj [("minimum", JNum 5)])
                (mkValidator TitledValidator (JObj titled_meta_schema))
                (plain_resolver (JObj titled_meta_schema)) eq_refl) as (_ & Hbad & _).
  cbv zeta in Hgood, Hbad.
  split; [vm_compute; reflexivity |]. split; [apply Hgood; vm_compute; reflexivity |].
  split; [vm_compute; reflexivity |]. apply Hbad. vm_compute. reflexivity.
Defined.

Lemma best_match_of_one_None (errors : list ValidationError) :
  best_match_of_one errors = None <-> errors = [].
Proof. destruct errors; cbn; split; congruence. Qed.

(** X13 at a schema that passes the check and an instance it accepts. *)
Lemma validate_returns_example :
  let schema_ := JObj [("title", JStr "t"); ("minimum", JNum 5)] in
  (validate urljoin_absolute urldefrag_plain unquote_plain normalize_plain fetch_offline
     TitledValidator best_match_of_one 10 empty_registry (JNum 7) schema_
     (Some TitledValidator) None).1 = Ok tt
  /\ (validate urljoin_absolute urldefrag_plain unquote_plain normalize_plain fetch_offline
        TitledValidator best_match_of_one 10 empty_registry (JNum 3) schema_
        (Some TitledValidator) None).1 <> Ok tt.
Proof.
  cbv zeta.
  pose proof (fun instance_ =>
    validate_returns_iff_valid urljoin_absolute urldefrag_plain unquote_plain
      normalize_plain fetch_offline TitledValidator best_match_of_one
      best_match_of_one_None 10 empty_registry TitledValidator instance_
      (JObj [("title", JStr "t"); ("minimum", JNum 5)]) None
      (mkValidator TitledValidator (JObj [("title", JStr "t"); ("minimum", JNum 5)]))
      (plain_resolver (JObj [("title", JStr "t"); ("minimum", JNum 5)])) eq_refl) as H.
  split.
  - apply H. split; vm_compute; reflexivity.
  - intros [_ Hvalid]%H. vm_compute in Hvalid. discriminate Hvalid.
Defined.

(** X16 at a class created with a meta-schema that has an id. *)
Lemma created_class_example :
  let meta_schema := [("$id", JStr "http://e.com/meta"); ("required", JArr [JStr "title"])] in
  let created := create normalize_plain no_types meta_schema None (Some titled_keywords)
                   (Some "titled") None None None empty_registry in
  exists cls,
    created.1 = Ok cls
    /\ validators created.2 !! "titled" = Some cls
    /\ validator_for normalize_plain LegacyValidator created.2
         (JObj [("$schema", JStr "http://e.com/meta"); ("minimum", JNum 1)]) None
       = (Ok cls, []).
Proof.
  cbv zeta.
  destruct (create normalize_plain no_types
              [("$id", JStr "http://e.com/meta"); ("required", JArr [JStr "title"])]
              None (Some titled_keywords) (Some "titled") None None None empty_registry)
    as [[cls | x] reg'] eqn:Hcreate; [| discriminate Hcreate].
  exists cls. split; [reflexivity |].
  apply (created_class_is_selected normalize_plain no_types LegacyValidator _ _ _ _ _ _ _
           _ _ _ (JStr "http://e.com/meta") _ None Hcreate).
  - injection Hcreate as <- _. reflexivity.
  - reflexivity.
Defined.

(** X17 at two overlays of [LegacyValidator]. *)
Lemma extend_twice_example :
  let first : gmap string callable := {[ "minimum" := never_ ]} in
  let second : gmap string callable := {[ "required" := never_ ]} in
  exists child grandchild,
    extend normalize_plain no_types LegacyValidator (Some first) None None empty_registry
    = (Ok child, empty_registry)
    /\ extend normalize_plain no_types child (Some second) None None empty_registry
       = (Ok grandchild, empty_registry)
    /\ extend normalize_plain no_types LegacyValidator (Some (second ∪ first)) None None
         empty_registry = (Ok grandchild, empty_registry)
    /\ VALIDATORS grandchild !! "minimum" = Some never_
    /\ VALIDATORS grandchild !! "required" = Some never_
    /\ VALIDATORS grandchild !! "$ref" = Some ref_.
Proof.
  cbv zeta. eexists _, _. split; [reflexivity |]. split; [reflexivity |].
  split; [| repeat split; vm_compute; reflexivity].
  eapply (extend_twice normalize_plain no_types LegacyValidator); reflexivity.
Defined.

(** ** The recursion limit *)

Lemma stopped_and_then (o : outcome) (rest : RefResolver -> outcome) :
  stopped_at_first o -> (forall r, stopped_at_first (rest r)) ->
  stopped_at_first (and_then o rest).
Proof.
  unfold stopped_at_first, and_then. intros Ho Hrest.
  destruct (how o) eqn:E; [| rewrite E; exact Ho ..].
  destruct Ho as [-> | [[=] | [=]]]. apply Hrest.
Qed.

Lemma stopped_finally_pop (o : outcome) :
  stopped_at_first o -> stopped_at_first (finally_pop o).
Proof.
  unfold stopped_at_first, finally_pop, pop_scope. intros Ho.
  destruct (_scopes_stack (resolver_after o)); cbn; [auto | exact Ho].
Qed.

Lemma stopped_map_yielded (f : ValidationError -> ValidationError) (o : outcome) :
  stopped_at_first o -> stopped_at_first (map_yielded f o).
Proof.
  unfold stopped_at_first, map_yielded. cbn. intros [-> | H]; [now left | now right].
Qed.

Lemma within_and_then (o : outcome) (rest : RefResolver -> outcome) :
  within_recursion_limit (and_then o rest) ->
  within_recursion_limit o
  /\ (how o = Finished -> within_recursion_limit (rest (resolver_after o))).
Proof.
  unfold within_recursion_limit, and_then.
  destruct (how o) eqn:E; cbn; intros H; (split; [congruence |]); try discriminate.
  intros _. exact H.
Qed.

Lemma and_then_same (o : outcome) (rest rest' : RefResolver -> outcome) :
  (how o = Finished -> rest' (resolver_after o) = rest (resolver_after o)) ->
  and_then o rest' = and_then o rest.
Proof.
  unfold and_then. destruct (how o); [| reflexivity ..]. intros H. now rewrite H.
Qed.

Section Recursion_limit.

Variable urljoin : json -> json -> result json.
Variable urldefrag : string -> result (string * string).
Variable unquote : string -> string.
Variable uri_normalize : json -> result string.
Variable fetch : string -> result json.

Section Run.

(** [self.iter_errors] with some recursion budget, and with one more unit
    of it. *)
Variable shallow deep : demand -> json -> json -> RefResolver -> outcome.

Hypothesis shallow_stopped : forall i s r, stopped_at_first (shallow First i s r).

Hypothesis shallow_keeps_stack :
  forall d i s r, _scopes_stack (resolver_after (shallow d i s r)) = _scopes_stack r.

Hypothesis deep_agrees :
  forall d i s r, within_recursion_limit (shallow d i s r) -> deep d i s r = shallow d i s r.

Local Abbreviation run_with := (run urljoin urldefrag unquote uri_normalize fetch).
Local Abbreviation each_with := (each_keyword urljoin urldefrag unquote uri_normalize fetch).
Local Abbreviation try_with := (try_block urljoin urldefrag unquote uri_normalize fetch).

Lemma run_stopped (p : prog) : forall r, stopped_at_first (run_with shallow First p r).
Proof.
  induction p as [| e next IH | x | i s pa sp next IH | i s pa sp next IH
                  | i s next IH | scope body IHbody next IH | ref body IHbody next IH
                  | next IH]; intros r; cbn.
  - now left.
  - right. now left.
  - now left.
  - apply stopped_and_then; [apply stopped_map_yielded, shallow_stopped | exact IH].
  - destruct (how (shallow All i s r)); [apply IH | now left ..].
  - destruct (next_or_None (shallow First i s r)); [apply IH | now left].
  - destruct (push_scope urljoin scope r) as [r1 |]; [| now left].
    apply stopped_and_then; [apply stopped_finally_pop, IHbody | exact IH].
  - destruct (resolve _ _ _ _ _ _ _) as [[[url resolved] | x] r0]; [| now left].
    destruct (push_scope urljoin (JStr url) r0) as [r1 |]; [| now left].
    apply stopped_and_then; [apply stopped_finally_pop, IHbody | exact IH].
  - apply IH.
Qed.

Lemma finally_pop_within (scope : json) (r r1 : RefResolver) (o : outcome) :
  push_scope urljoin scope r = Ok r1 ->
  _scopes_stack (resolver_after o) = _scopes_stack r1 ->
  within_recursion_limit (finally_pop o) -> within_recursion_limit o.
Proof.
  intros Hpush Hstack. unfold within_recursion_limit.
  now destruct (finally_pop_after_push urljoin _ _ _ _ Hpush Hstack) as (_ & _ & ->).
Qed.

Lemma run_deep (p : prog) :
  forall d r,
    within_recursion_limit (run_with shallow d p r) ->
    run_with deep d p r = run_with shallow d p r.
Proof.
  induction p as [| e next IH | x | i s pa sp next IH | i s pa sp next IH
                  | i s next IH | scope body IHbody next IH | ref body IHbody next IH
                  | next IH]; intros d r; cbn.
  - reflexivity.
  - destruct d; [| reflexivity]. unfold yield, within_recursion_limit. cbn.
    intros H. now rewrite IH.
  - reflexivity.
  - intros [Hrec Hnext]%within_and_then.
    unfold within_recursion_limit, map_yielded in Hrec. cbn in Hrec.
    rewrite (deep_agrees _ _ _ _ Hrec). apply and_then_same. intros Hfin.
    apply IH, Hnext, Hfin.
  - destruct (how (shallow All i s r)) eqn:Hhow.
    + intros H. rewrite deep_agrees by (unfold within_recursion_limit; congruence).
      rewrite Hhow. now apply IH.
    + intros _. rewrite deep_agrees by (unfold within_recursion_limit; congruence).
      now rewrite Hhow.
    + unfold within_recursion_limit. cbn. intros H.
      rewrite deep_agrees by (unfold within_recursion_limit; congruence).
      now rewrite Hhow.
  - assert (Hwithin : within_recursion_limit
                        match next_or_None (shallow First i s r) with
                        | Ok error =>
                            run_with shallow d
                              (next match error with Some _ => false | None => true end)
                              (resolver_after (shallow First i s r))
                        | Err x => raised x (resolver_after (shallow First i s r))
                        end ->
                      within_recursion_limit (shallow First i s r)).
    { unfold within_recursion_limit, next_or_None.
      destruct (shallow_stopped i s r) as [Hy | [Hc | Hp]]; [| congruence ..].
      rewrite Hy. destruct (how (shallow First i s r)); cbn; congruence. }
    intros H. rewrite (deep_agrees _ _ _ _ (Hwithin H)).
    destruct (next_or_None (shallow First i s r)); [now apply IH | reflexivity].
  - destruct (push_scope urljoin scope r) as [r1 |] eqn:Hpush; [| reflexivity].
    intros [Hbody Hnext]%within_and_then.
    apply (finally_pop_within _ _ _ _ Hpush) in Hbody;
      [| now apply run_keeps_stack].
    rewrite (IHbody _ _ Hbody). apply and_then_same. intros Hfin. apply IH, Hnext, Hfin.
  - destruct (resolve _ _ _ _ _ _ _) as [[[url resolved] | x] r0]; [| reflexivity].
    destruct (push_scope urljoin (JStr url) r0) as [r1 |] eqn:Hpush; [| reflexivity].
    intros [Hbody Hnext]%within_and_then.
    apply (finally_pop_within _ _ _ _ Hpush) in Hbody;
      [| now apply run_keeps_stack].
    rewrite (IHbody _ _ _ Hbody). apply and_then_same. intros Hfin. apply IH, Hnext, Hfin.
  - apply IH.
Qed.

Lemma each_keyword_stopped (table : gmap string callable) (instance_ _schema : json)
    (pairs : list (string * json)) :
  forall r, stopped_at_first (each_with shallow table First instance_ _schema pairs r).
Proof.
  induction pairs as [| [k v] rest IH]; intros r; cbn; [now left |].
  destruct (table !! k) as [c |]; [| apply IH].
  apply stopped_and_then; [apply stopped_map_yielded, run_stopped | exact IH].
Qed.

Lemma each_keyword_deep (table : gmap string callable) (d : demand)
    (instance_ _schema : json) (pairs : list (string * json)) :
  forall r,
    within_recursion_limit (each_with shallow table d instance_ _schema pairs r) ->
    each_with deep table d instance_ _schema pairs r
    = each_with shallow table d instance_ _schema pairs r.
Proof.
  induction pairs as [| [k v] rest IH]; intros r; cbn; [reflexivity |].
  destruct (table !! k) as [c |]; [| apply IH].
  intros [Hrun Hrest]%within_and_then.
  unfold within_recursion_limit, map_yielded in Hrun. cbn in Hrun.
  rewrite (run_deep _ _ _ Hrun). apply and_then_same. intros Hfin. apply IH, Hrest, Hfin.
Qed.

Lemma iter_errors_body_stopped_and_deep (self : Validator) (instance_ _schema : json)
    (r : RefResolver) :
  stopped_at_first
    (iter_errors_body urljoin urldefrag unquote uri_normalize fetch shallow self First
       instance_ _schema r)
  /\ forall d,
      within_recursion_limit
        (iter_errors_body urljoin urldefrag unquote uri_normalize fetch shallow self d
           instance_ _schema r) ->
      iter_errors_body urljoin urldefrag unquote uri_normalize fetch deep self d
        instance_ _schema r
      = iter_errors_body urljoin urldefrag unquote uri_normalize fetch shallow self d
          instance_ _schema r.
Proof.
  assert (Hstopped : forall s r',
    stopped_at_first (try_with shallow (class_of self) First instance_ s r')).
  { intros s r'. unfold try_block.
    destruct (applicable_validators _ _); [apply each_keyword_stopped | now left]. }
  assert (Hdeep : forall d s r',
    within_recursion_limit (try_with shallow (class_of self) d instance_ s r') ->
    try_with deep (class_of self) d instance_ s r'
    = try_with shallow (class_of self) d instance_ s r').
  { intros d s r'. unfold try_block.
    destruct (applicable_validators _ _); [apply each_keyword_deep | reflexivity]. }
  assert (Hkeep : forall d s r',
    _scopes_stack (resolver_after (try_with shallow (class_of self) d instance_ s r'))
    = _scopes_stack r').
  { intros d s r'. unfold try_block.
    destruct (applicable_validators _ _); [| reflexivity].
    now apply each_keyword_keeps_stack. }
  unfold iter_errors_body.
  set (effective := match _schema with JNull => self_schema self | _ => _schema end).
  destruct effective as [| [|] | n | s | items | members];
    try (destruct (ID_OF _ _) as [scope |]; [| split; [now left | reflexivity]];
         destruct (truthy scope); [| split; [apply Hstopped | intros d; apply Hdeep]];
         destruct (push_scope urljoin scope r) as [r1 |] eqn:Hpush;
           [| split; [now left | reflexivity]];
         split; [apply stopped_finally_pop, Hstopped |];
         intros d Hwithin;
         apply (finally_pop_within _ _ _ _ Hpush) in Hwithin; [| apply Hkeep];
         now rewrite (Hdeep _ _ _ Hwithin)).
  - split; [now left | reflexivity].
  - split; [right; now left | reflexivity].
Qed.

End Run.

Lemma iter_errors_stopped_and_deeper (depth : nat) (self : Validator) :
  forall instance_ _schema r,
    stopped_at_first
      (iter_errors urljoin urldefrag unquote uri_normalize fetch depth self First
         instance_ _schema r)
    /\ forall d,
        within_recursion_limit
          (iter_errors urljoin urldefrag unquote uri_normalize fetch depth self d
             instance_ _schema r) ->
        iter_errors urljoin urldefrag unquote uri_normalize fetch (S depth) self d
          instance_ _schema r
        = iter_errors urljoin urldefrag unquote uri_normalize fetch depth self d
            instance_ _schema r.
Proof.
  induction depth as [| depth IH]; intros instance_ _schema r.
  - split; [now left |]. intros d H. now destruct H.
  - change (iter_errors urljoin urldefrag unquote uri_normalize fetch (S (S depth)) self)
      with (iter_errors_body urljoin urldefrag unquote uri_normalize fetch
              (iter_errors urljoin urldefrag unquote uri_normalize fetch (S depth) self) self).
    change (iter_errors urljoin urldefrag unquote uri_normalize fetch (S depth) self)
      with (iter_errors_body urljoin urldefrag unquote uri_normalize fetch
              (iter_errors urljoin urldefrag unquote uri_normalize fetch depth self) self)
      at 1 2 4.
    apply iter_errors_body_stopped_and_deep.
    + intros i s r'. apply IH.
    + apply iter_errors_keeps_stack.
    + intros d i s r'. apply IH.
Qed.


End Recursion_limit.


Section Laziness.

Variable urljoin : json -> json -> result json.
Variable urldefrag : string -> result (string * string).
Variable unquote : string -> string.
Variable uri_normalize : json -> result string.
Variable fetch : string -> result json.

(** X19.  A consumer that stops [iter_errors] at its first diagnostic
    sees the first diagnostic of the exhausted generator and nothing
    else; when the exhausted generator has no diagnostic the two runs are
    the same run. *)
Theorem first_diagnostic_is_the_head (depth : nat) (self : Validator)
    (instance_ _schema : json) (r : RefResolver) :
  let all := iter_errors urljoin urldefrag unquote uri_normalize fetch depth self All
               instance_ _schema r in
  let first := iter_errors urljoin urldefrag unquote uri_normalize fetch depth self First
                 instance_ _schema r in
  yielded first = take 1 (yielded all)
  /\ (yielded all = [] -> first = all)
  /\ (yielded all <> [] -> how first <> Finished)
  /\ how all <> Closed.
Proof.
  cbv zeta.
  destruct (iter_errors_cut urljoin urldefrag unquote uri_normalize fetch depth self
              instance_ _schema r) as [Hcut Hopen].
  unfold cut_at_first in Hcut.
  destruct (yielded (iter_errors _ _ _ _ _ depth self All instance_ _schema r))
    as [| e es] eqn:Hall.
  - rewrite Hcut. rewrite Hall. repeat split; [done | exact Hopen].
  - destruct Hcut as [Hfirst Hstop]. repeat split; [exact Hfirst | done | auto | exact Hopen].
Qed.

End Laziness.
